(** * Water Sort solver: a shallow embedding of [ai_solution.py]

    The Python class [GameSolution] searches the state space of the Water
    Sort puzzle, by depth-first backtracking ([solve]) and by a best-first
    search over a [heapq] priority queue ([optimal_solve]).

    A configuration is a Python list of lists of ints: [list (list Z)].
    A move is a pair of Python ints: [Z * Z].  Python exceptions are made
    explicit in the type [outcome]; the two unbounded loops of the program
    (the recursion of [dfs] and the [while] of [a_star_search]) take fuel.
    The recursion limit of the interpreter is not modelled. *)

From stdpp Require Import base option list sorting gmap sets.
From Stdlib Require Import ZArith Lia.

Local Open Scope Z_scope.

(** ** Python values and exceptions *)

Inductive exn : Set := IndexError | KeyError | TypeError.

Inductive outcome (A : Type) : Type :=
  | Ok (a : A)
  | Raise (e : exn)
  | NoFuel.
Arguments Ok {A} a.
Arguments Raise {A} e.
Arguments NoFuel {A}.

#[global] Instance outcome_ret : MRet outcome := λ A a, Ok a.
#[global] Instance outcome_bind : MBind outcome := λ A B k m,
  match m with
  | Ok a => k a
  | Raise e => Raise e
  | NoFuel => NoFuel
  end.


(** [l[i]] for a Python int [i]: negative indices count from the end, and
    anything outside [-len .. len-1] raises [IndexError]. *)
Definition py_index {A} (l : list A) (i : Z) : outcome nat :=
  let n := Z.of_nat (length l) in
  if decide (0 ≤ i < n) then Ok (Z.to_nat i)
  else if decide (- n ≤ i < 0) then Ok (Z.to_nat (n + i))
  else Raise IndexError.

Definition py_get {A} (l : list A) (i : Z) : outcome A :=
  k ← py_index l i;
  match l !! k with
  | Some x => Ok x
  | None => Raise IndexError
  end.

(** [l.pop()]: the list without its last element, and that element. *)
Definition list_pop {A} (l : list A) : outcome (list A * A) :=
  match last l with
  | Some x => Ok (removelast l, x)
  | None => Raise IndexError
  end.

(** ** The game object

    [GameSolution] reads two members of the [Game] instance it is given:
    the method [check_victory] and the attribute [NColorInTube].  The class
    [Game] is not part of [ai_solution.py]; it is a parameter here. *)

Record Game : Type := mkGame {
  check_victory : list (list Z) → bool;
  NColorInTube : Z
}.

Record GameSolution : Type := mkGameSolution {
  game : Game;
  solution_found : bool;
  moves : list (Z * Z);
  visited_states : gset (list (list Z))
}.

(** [GameSolution.__init__] *)
Definition init (g : Game) : GameSolution :=
  {| game := g; solution_found := false; moves := []; visited_states := ∅ |}.

Definition is_victory (self : GameSolution) (tube_colors : list (list Z)) : bool :=
  check_victory (game self) tube_colors.

(** ** Move generation *)

(** The test of the inner [if] of [get_possible_moves], for [i], [j] drawn
    from [range(len(tube_colors))]. *)
Definition can_pour (cap : Z) (tube_colors : list (list Z)) (i j : nat) : bool :=
  let ti := tube_colors !!! i in
  let tj := tube_colors !!! j in
  bool_decide (i ≠ j) &&
  (bool_decide (tj = []) ||
   (bool_decide (Z.of_nat (length tj) < cap) && bool_decide (last tj = last ti))).

Definition get_possible_moves (self : GameSolution) (tube_colors : list (list Z))
    : list (Z * Z) :=
  let n := length tube_colors in
  foldl (λ moves i,
    if bool_decide (tube_colors !!! i ≠ [])
    then foldl (λ moves j,
           if can_pour (NColorInTube (game self)) tube_colors i j
           then moves ++ [(Z.of_nat i, Z.of_nat j)]
           else moves) moves (seq 0 n)
    else moves) [] (seq 0 n).

(** ** Applying a move *)

Definition make_move (tube_colors : list (list Z)) (move : Z * Z)
    : outcome (list (list Z)) :=
  let new_tube_colors := tube_colors in
  let '(src, dst) := move in
  s ← py_index new_tube_colors src;
  ts ← py_get new_tube_colors src;
  '(ts', color) ← list_pop ts;
  let new_tube_colors := <[s := ts']> new_tube_colors in
  d ← py_index new_tube_colors dst;
  td ← py_get new_tube_colors dst;
  let new_tube_colors := <[d := td ++ [color]]> new_tube_colors in
  Ok new_tube_colors.

(** [replay] applies the moves of a path one after the other. *)
Fixpoint replay (tube_colors : list (list Z)) (path : list (Z * Z))
    : outcome (list (list Z)) :=
  match path with
  | [] => Ok tube_colors
  | move :: path =>
      next_colors ← make_move tube_colors move;
      replay next_colors path
  end.

(** ** Exhaustive search: [solve] and its inner function [dfs] *)

Definition found (self : GameSolution) (path : list (Z * Z)) : GameSolution :=
  {| game := game self; solution_found := true; moves := path;
     visited_states := visited_states self |}.

Definition visit (self : GameSolution) (colors_tuple : list (list Z)) : GameSolution :=
  {| game := game self; solution_found := solution_found self; moves := moves self;
     visited_states := {[colors_tuple]} ∪ visited_states self |}.

Fixpoint dfs (fuel : nat) (self : GameSolution) (current_colors : list (list Z))
    (path : list (Z * Z)) {struct fuel} : outcome (bool * GameSolution) :=
  match fuel with
  | O => NoFuel
  | S fuel =>
      if is_victory self current_colors then Ok (true, found self path)
      else
        (fix for_move (self : GameSolution) (todo : list (Z * Z)) {struct todo}
             : outcome (bool * GameSolution) :=
           match todo with
           | [] => Ok (false, self)
           | move :: todo =>
               next_colors ← make_move current_colors move;
               let colors_tuple := next_colors in
               if decide (colors_tuple ∉ visited_states self) then
                 let self := visit self colors_tuple in
                 '(r, self) ← dfs fuel self next_colors (path ++ [move]);
                 if (r : bool) then Ok (true, self) else for_move self todo
               else for_move self todo
           end) self (get_possible_moves self current_colors)
  end.

Definition solve (fuel : nat) (self : GameSolution) (tube_colors : list (list Z))
    : outcome GameSolution :=
  let initial_state := tube_colors in
  let self := visit self initial_state in
  '(_, self) ← dfs fuel self tube_colors [];
  Ok self.

(** ** Heuristic *)

(** [len(set(tube))] *)
Definition distinct (tube : list Z) : Z :=
  Z.of_nat (size (list_to_set tube : gset Z)).

Definition heuristic (self : GameSolution) (tube_colors : list (list Z)) : Z :=
  let '(misplaced_tubes, incomplete_tubes) :=
    foldl (λ '(misplaced_tubes, incomplete_tubes) tube,
      let misplaced_tubes :=
        if bool_decide (tube ≠ []) && bool_decide (1 < distinct tube)
        then misplaced_tubes + 1 else misplaced_tubes in
      let incomplete_tubes :=
        if bool_decide (tube ≠ []) &&
           (bool_decide (0 < distinct tube) &&
            bool_decide (distinct tube < NColorInTube (game self)))
        then incomplete_tubes + 1 else incomplete_tubes in
      (misplaced_tubes, incomplete_tubes)) (0, 0) tube_colors in
  misplaced_tubes + incomplete_tubes.

(** ** Python's ordering of lists and tuples

    [a < b] on two lists (or tuples) looks for the first position where
    the elements differ and compares these; when one is a prefix of the
    other the shorter one is the smaller. *)

Section Lex.
Context {A : Type} `{EqDecision A} (lt : A → A → bool).

Fixpoint list_lt (l1 l2 : list A) : bool :=
  match l1, l2 with
  | [], [] => false
  | [], _ :: _ => true
  | _ :: _, [] => false
  | x :: l1, y :: l2 => if decide (x = y) then list_lt l1 l2 else lt x y
  end.
End Lex.

Definition pair_lt (m1 m2 : Z * Z) : bool :=
  if decide (m1.1 = m2.1) then m1.2 <? m2.2 else m1.1 <? m2.1.

Definition tube_lt : list Z → list Z → bool := list_lt Z.ltb.
Definition colors_lt : list (list Z) → list (list Z) → bool := list_lt tube_lt.
Definition path_lt : list (Z * Z) → list (Z * Z) → bool := list_lt pair_lt.

(** [<] on the entries [(f, colors, path)] of the priority queue. *)
Definition entry_lt (a b : Z * list (list Z) * list (Z * Z)) : bool :=
  let '(fa, ca, pa) := a in
  let '(fb, cb, pb) := b in
  if decide (fa = fb) then
    if decide (ca = cb) then path_lt pa pb else colors_lt ca cb
  else fa <? fb.

(** ** The [heapq] module

    [heappush] and [heappop] as the standard library implements them, on a
    Python list used as an implicit binary tree.  Items are compared with
    [<] only.  The loop of [_siftdown] moves [pos] to its parent, so [pos]
    steps are enough fuel; the loop of [_siftup] moves [pos] to a child
    below [len(heap)], so [len(heap)] steps are enough. *)

Definition list_get {A} (l : list A) (i : nat) : outcome A :=
  match l !! i with
  | Some x => Ok x
  | None => Raise IndexError
  end.

Definition list_set {A} (l : list A) (i : nat) (x : A) : outcome (list A) :=
  if decide (i < length l)%nat then Ok (<[i := x]> l) else Raise IndexError.

Section Heapq.
Context {A : Type} (lt : A → A → bool).

Fixpoint siftdown_loop (fuel : nat) (heap : list A) (startpos pos : nat)
    (newitem : A) : outcome (list A * nat) :=
  if decide (startpos < pos)%nat then
    match fuel with
    | O => NoFuel
    | S fuel =>
        let parentpos := ((pos - 1) / 2)%nat in
        parent ← list_get heap parentpos;
        if lt newitem parent then
          heap ← list_set heap pos parent;
          siftdown_loop fuel heap startpos parentpos newitem
        else Ok (heap, pos)
    end
  else Ok (heap, pos).

Definition siftdown (heap : list A) (startpos pos : nat) : outcome (list A) :=
  newitem ← list_get heap pos;
  '(heap, pos) ← siftdown_loop pos heap startpos pos newitem;
  list_set heap pos newitem.

Fixpoint siftup_loop (fuel : nat) (heap : list A) (endpos pos : nat)
    : outcome (list A * nat) :=
  let childpos := (2 * pos + 1)%nat in
  if decide (childpos < endpos)%nat then
    match fuel with
    | O => NoFuel
    | S fuel =>
        let rightpos := (childpos + 1)%nat in
        childpos ←
          (if decide (rightpos < endpos)%nat then
             l ← list_get heap childpos;
             r ← list_get heap rightpos;
             Ok (if negb (lt l r) then rightpos else childpos)
           else Ok childpos);
        child ← list_get heap childpos;
        heap ← list_set heap pos child;
        siftup_loop fuel heap endpos childpos
    end
  else Ok (heap, pos).

Definition siftup (heap : list A) (pos : nat) : outcome (list A) :=
  let endpos := length heap in
  let startpos := pos in
  newitem ← list_get heap pos;
  '(heap, pos) ← siftup_loop endpos heap endpos pos;
  heap ← list_set heap pos newitem;
  siftdown heap startpos pos.

Definition heappush (heap : list A) (item : A) : outcome (list A) :=
  let heap := heap ++ [item] in
  siftdown heap 0 (length heap - 1).

Definition heappop (heap : list A) : outcome (A * list A) :=
  '(heap, lastelt) ← list_pop heap;
  match heap with
  | [] => Ok (lastelt, heap)
  | _ :: _ =>
      returnitem ← list_get heap 0;
      heap ← list_set heap 0 lastelt;
      heap ← siftup heap 0;
      Ok (returnitem, heap)
  end.
End Heapq.

(** ** Informed search: [optimal_solve] and its inner [a_star_search] *)

Definition dict_get (d : gmap (list (list Z)) Z) (k : list (list Z)) : outcome Z :=
  match d !! k with
  | Some v => Ok v
  | None => Raise KeyError
  end.

(** The local variables of [a_star_search] that the loop updates. *)
Record AStar : Type := mkAStar {
  g : gmap (list (list Z)) Z;
  h : gmap (list (list Z)) Z;
  f : gmap (list (list Z)) Z;
  priority_queue : list (Z * list (list Z) * list (Z * Z));
  visited : gset (list (list Z))
}.

(** The body of [for move in self.get_possible_moves(current_colors)]. *)
Definition a_star_move (self : GameSolution) (current_colors : list (list Z))
    (path : list (Z * Z)) (st : AStar) (move : Z * Z) : outcome AStar :=
  next_colors ← make_move current_colors move;
  let colors_tuple := next_colors in
  if decide (colors_tuple ∉ visited st) then
    let visited := {[colors_tuple]} ∪ visited st in
    g_cur ← dict_get (g st) current_colors;
    let g := <[colors_tuple := g_cur + 1]> (g st) in
    let h := <[colors_tuple := heuristic self next_colors]> (h st) in
    g_next ← dict_get g colors_tuple;
    h_next ← dict_get h colors_tuple;
    let f := <[colors_tuple := g_next + h_next]> (f st) in
    f_next ← dict_get f colors_tuple;
    priority_queue ←
      heappush entry_lt (priority_queue st) (f_next, next_colors, path ++ [move]);
    Ok (mkAStar g h f priority_queue visited)
  else Ok st.

Fixpoint a_star_for (self : GameSolution) (current_colors : list (list Z))
    (path : list (Z * Z)) (st : AStar) (todo : list (Z * Z)) : outcome AStar :=
  match todo with
  | [] => Ok st
  | move :: todo =>
      st ← a_star_move self current_colors path st move;
      a_star_for self current_colors path st todo
  end.

Definition with_queue (st : AStar) (q : list (Z * list (list Z) * list (Z * Z)))
    : AStar :=
  mkAStar (g st) (h st) (f st) q (visited st).

(** The [while priority_queue:] loop. *)
Fixpoint a_star_while (fuel : nat) (self : GameSolution) (st : AStar)
    : outcome (bool * GameSolution) :=
  match priority_queue st with
  | [] => Ok (false, self)
  | _ :: _ =>
      match fuel with
      | O => NoFuel
      | S fuel =>
          '(item, queue) ← heappop entry_lt (priority_queue st);
          let '(_, current_colors, path) := item in
          let st := with_queue st queue in
          if is_victory self current_colors then Ok (true, found self path)
          else
            st ← a_star_for self current_colors path st
                   (get_possible_moves self current_colors);
            a_star_while fuel self st
      end
  end.

Definition a_star_init (self : GameSolution) (start_colors : list (list Z)) : outcome AStar :=
  let initial_state := start_colors in
  let g : gmap (list (list Z)) Z := {[initial_state := 0]} in
  let h : gmap (list (list Z)) Z := {[initial_state := heuristic self start_colors]} in
  g0 ← dict_get g initial_state;
  h0 ← dict_get h initial_state;
  let f : gmap (list (list Z)) Z := {[initial_state := g0 + h0]} in
  f0 ← dict_get f initial_state;
  let priority_queue := [(f0, start_colors, [])] in
  let visited : gset (list (list Z)) := {[initial_state]} ∪ ∅ in
  Ok (mkAStar g h f priority_queue visited).

Definition a_star_search (fuel : nat) (self : GameSolution) (start_colors : list (list Z))
    : outcome (bool * GameSolution) :=
  st ← a_star_init self start_colors;
  a_star_while fuel self st.

Definition optimal_solve (fuel : nat) (self : GameSolution) (tube_colors : list (list Z))
    : outcome GameSolution :=
  '(_, self) ← a_star_search fuel self tube_colors;
  Ok self.

(** ** [make_move] on the object store

    A Python list is an object: [tube_colors] is a reference to a list of
    references to lists of ints, and both [pop] and [append] update an
    object in place.  [Store.make_move] follows the source on a store of
    such objects; the value-level [make_move] above is what it computes. *)

Module Store.

Inductive obj : Type :=
  | Ints (l : list Z)
  | Refs (l : list positive).

Definition alloc (σ : gmap positive obj) (o : obj) : positive * gmap positive obj :=
  let l := fresh (dom σ) in (l, <[l := o]> σ).

Definition get_ints (σ : gmap positive obj) (l : positive) : outcome (list Z) :=
  match σ !! l with
  | Some (Ints t) => Ok t
  | _ => Raise TypeError
  end.

Definition get_refs (σ : gmap positive obj) (l : positive) : outcome (list positive) :=
  match σ !! l with
  | Some (Refs t) => Ok t
  | _ => Raise TypeError
  end.

(** [[tube[:] for tube in tube_colors]]: one new list object per element. *)
Fixpoint copy_tubes (σ : gmap positive obj) (tubes : list positive)
    : outcome (list positive * gmap positive obj) :=
  match tubes with
  | [] => Ok ([], σ)
  | tube :: tubes =>
      t ← get_ints σ tube;
      let '(l, σ) := alloc σ (Ints t) in
      '(ls, σ) ← copy_tubes σ tubes;
      Ok (l :: ls, σ)
  end.

Definition make_move (σ : gmap positive obj) (tube_colors : positive) (move : Z * Z)
    : outcome (positive * gmap positive obj) :=
  tubes ← get_refs σ tube_colors;
  '(new_tubes, σ) ← copy_tubes σ tubes;
  let '(new_tube_colors, σ) := alloc σ (Refs new_tubes) in
  let '(src, dst) := move in
  lsrc ← py_get new_tubes src;
  ts ← get_ints σ lsrc;
  '(ts', color) ← list_pop ts;
  let σ := <[lsrc := Ints ts']> σ in
  ldst ← py_get new_tubes dst;
  td ← get_ints σ ldst;
  let σ := <[ldst := Ints (td ++ [color])]> σ in
  Ok (new_tube_colors, σ).

(** The configuration that a reference denotes in a store. *)
Definition tube_at (σ : gmap positive obj) (l : positive) : option (list Z) :=
  match σ !! l with
  | Some (Ints t) => Some t
  | _ => None
  end.

Definition config_at (σ : gmap positive obj) (l : positive) : option (list (list Z)) :=
  match σ !! l with
  | Some (Refs tubes) => mapM (tube_at σ) tubes
  | _ => None
  end.

End Store.

(** ** The victory test

    Modelled from the spec: [Game.check_victory] is not in
    [ai_solution.py].  The spec has it true iff every tube is either empty
    or filled to exactly the capacity with a single repeated color. *)

Definition tube_done (capacity : Z) (tube : list Z) : bool :=
  match tube with
  | [] => true
  | c :: _ =>
      bool_decide (Z.of_nat (length tube) = capacity) && forallb (Z.eqb c) tube
  end.

Definition check_victory_spec (capacity : Z) (tube_colors : list (list Z)) : bool :=
  forallb (tube_done capacity) tube_colors.

Definition spec_game (capacity : Z) : Game :=
  {| check_victory := check_victory_spec capacity; NColorInTube := capacity |}.

(** ** Properties stated by the specification *)

(** A move [(i, j)] is legal: distinct tubes, a non-empty source, and a
    destination that is empty, or below capacity with the same top color. *)
Definition legal (capacity : Z) (tube_colors : list (list Z)) (i j : nat) : Prop :=
  i ≠ j ∧
  ∃ ti tj, tube_colors !! i = Some ti ∧ tube_colors !! j = Some tj ∧
    ti ≠ [] ∧
    (tj = [] ∨ (Z.of_nat (length tj) < capacity ∧ last tj = last ti)).

(** Ascending source index, then ascending destination index. *)
Definition move_before (m1 m2 : Z * Z) : Prop :=
  m1.1 < m2.1 ∨ (m1.1 = m2.1 ∧ m1.2 < m2.2).

(** The moves out of source [i], in the order of the inner loop. *)
Definition moves_from (capacity : Z) (tube_colors : list (list Z)) (i : nat)
    : list (Z * Z) :=
  if bool_decide (tube_colors !!! i ≠ [])
  then (λ j, (Z.of_nat i, Z.of_nat j)) <$>
         filter (λ j, Is_true (can_pour capacity tube_colors i j))
                (seq 0 (length tube_colors))
  else [].

(** The colored units of a configuration, and how many have color [c]. *)
Definition units (tube_colors : list (list Z)) : list Z := concat tube_colors.

Definition count_color (c : Z) (tube_colors : list (list Z)) : nat :=
  length (filter (λ x, x = c) (units tube_colors)).

(** Every tube holds at most [capacity] units. *)
Definition within_capacity (capacity : Z) (tube_colors : list (list Z)) : Prop :=
  Forall (λ tube, Z.of_nat (length tube) ≤ capacity) tube_colors.

(** [after] is [before] with the last unit of tube [s] removed and appended
    to tube [d]. *)
Definition poured (before after : list (list Z)) (s d : nat) : Prop :=
  length after = length before ∧
  (∀ k, k ≠ s → k ≠ d → after !! k = before !! k) ∧
  ∃ init c td,
    before !! s = Some (init ++ [c]) ∧
    (<[s := init]> before) !! d = Some td ∧
    after !! d = Some (td ++ [c]) ∧
    (s ≠ d → after !! s = Some init).

(** The two conditions that the heuristic counts, as the spec words them:
    a tube is "misplaced" when it is non-empty and holds at least two
    distinct colors, "incomplete" when it is non-empty and holds fewer than
    [capacity] distinct colors. *)
Definition misplaced (tube : list Z) : Prop :=
  tube ≠ [] ∧ 2 ≤ distinct tube.

Definition incomplete (capacity : Z) (tube : list Z) : Prop :=
  tube ≠ [] ∧ distinct tube < capacity.

#[global] Instance misplaced_dec tube : Decision (misplaced tube).
Proof. unfold misplaced. apply _. Defined.

#[global] Instance incomplete_dec capacity tube : Decision (incomplete capacity tube).
Proof. unfold incomplete. apply _. Defined.

Definition heuristic_spec (capacity : Z) (tube_colors : list (list Z)) : Z :=
  Z.of_nat (length (filter misplaced tube_colors))
  + Z.of_nat (length (filter (incomplete capacity) tube_colors)).

(** What one call of [dfs] does to the object: the game is never changed;
    when the call returns [True] it has recorded [path] extended by moves
    that lead from [current_colors] to a victory; when it returns [False]
    it has left [solution_found] and [moves] alone. *)
Definition dfs_post (self : GameSolution) (current_colors : list (list Z))
    (path : list (Z * Z)) (r : bool) (self' : GameSolution) : Prop :=
  game self' = game self ∧
  visited_states self ⊆ visited_states self' ∧
  if r then
    solution_found self' = true ∧
    ∃ suffix final, moves self' = path ++ suffix
      ∧ replay current_colors suffix = Ok final
      ∧ check_victory (game self) final = true
  else
    solution_found self' = solution_found self ∧ moves self' = moves self.

(** [lt] is a strict total order, as [<] is on ints and on lists and
    tuples of them. *)
Record StrictTotal {A : Type} (lt : A → A → bool) : Prop := {
  lt_irrefl : ∀ x, lt x x = false;
  lt_trans : ∀ x y z, lt x y = true → lt y z = true → lt x z = true;
  lt_total : ∀ x y, lt x y = false → lt y x = false → x = y
}.

(** [not (y < x)] *)
Definition le_of {A : Type} (lt : A → A → bool) (x y : A) : Prop := lt y x = false.

(** The heap invariant of [heapq]: [heap[(k-1)//2] <= heap[k]] for every
    position [k > 0]. *)
Definition heap_ok {A : Type} (lt : A → A → bool) (heap : list A) : Prop :=
  ∀ j x p, (0 < j)%nat → heap !! j = Some x → heap !! ((j - 1) / 2)%nat = Some p →
    le_of lt p x.

(** The invariant but for the edge from [pos] up to its parent; the
    children of [pos] are no smaller than the parent of [pos]. *)
Definition up_ok {A : Type} (lt : A → A → bool) (heap : list A) (pos : nat) : Prop :=
  (∀ j x p, (0 < j)%nat → j ≠ pos →
     heap !! j = Some x → heap !! ((j - 1) / 2)%nat = Some p → le_of lt p x)
  ∧ (∀ j x p, (0 < pos)%nat → (0 < j)%nat → ((j - 1) / 2)%nat = pos →
     heap !! j = Some x → heap !! ((pos - 1) / 2)%nat = Some p → le_of lt p x).

(** The invariant but for the edges from [pos] down to its children; the
    children of [pos] are no smaller than the parent of [pos]. *)
Definition hole_ok {A : Type} (lt : A → A → bool) (heap : list A) (pos : nat) : Prop :=
  (∀ j x p, (0 < j)%nat → ((j - 1) / 2)%nat ≠ pos →
     heap !! j = Some x → heap !! ((j - 1) / 2)%nat = Some p → le_of lt p x)
  ∧ (∀ j x p, (0 < pos)%nat → (0 < j)%nat → ((j - 1) / 2)%nat = pos →
     heap !! j = Some x → heap !! ((pos - 1) / 2)%nat = Some p → le_of lt p x).

(** The choice of [childpos] in the loop of [_siftup]. *)
Definition smaller_child {A : Type} (lt : A → A → bool) (heap : list A)
    (endpos pos : nat) : outcome nat :=
  let childpos := (2 * pos + 1)%nat in
  let rightpos := (childpos + 1)%nat in
  if decide (rightpos < endpos)%nat then
    l ← list_get heap childpos;
    r ← list_get heap rightpos;
    Ok (if negb (lt l r) then rightpos else childpos)
  else Ok childpos.

(** The states of [a_star_search] at the head of its [while] loop. *)
Inductive frontier (self : GameSolution) (start_colors : list (list Z))
    : AStar → Prop :=
  | frontier_start st :
      a_star_init self start_colors = Ok st →
      frontier self start_colors st
  | frontier_next st fv current_colors path queue st' :
      frontier self start_colors st →
      heappop entry_lt (priority_queue st) = Ok ((fv, current_colors, path), queue) →
      is_victory self current_colors = false →
      a_star_for self current_colors path (with_queue st queue)
        (get_possible_moves self current_colors) = Ok st' →
      frontier self start_colors st'.

(** What the loop of [a_star_search] keeps true of its queue: it is a
    heap, it holds no configuration twice, and its configurations have all
    been marked visited. *)
Definition queue_ok (st : AStar) : Prop :=
  heap_ok entry_lt (priority_queue st)
  ∧ NoDup ((λ e, e.1.2) <$> priority_queue st)
  ∧ ∀ e, e ∈ priority_queue st → e.1.2 ∈ visited st.

(** ** Further properties of the code *)

(** [src] and [dst] index tubes of the configuration and the source tube
    is not empty. *)
Definition pourable (tube_colors : list (list Z)) (src dst : Z) : Prop :=
  ∃ s d ts, py_index tube_colors src = Ok s ∧ py_index tube_colors dst = Ok d
            ∧ tube_colors !! s = Some ts ∧ ts ≠ [].

(** All the units of the tube have one color. *)
Definition monochrome (tube : list Z) : Prop :=
  ∀ x y, x ∈ tube → y ∈ tube → x = y.

(** The moves that a game generates for a configuration: the result of
    [get_possible_moves] depends on [self] through [self.game] only. *)
Definition moves_of (g : Game) (tube_colors : list (list Z)) : list (Z * Z) :=
  get_possible_moves (init g) tube_colors.

(** [reach g C path final]: the moves of [path], each generated for the
    configuration it is applied to, lead from [C] to [final]. *)
Inductive reach (g : Game) : list (list Z) → list (Z * Z) → list (list Z) → Prop :=
  | reach_nil C : reach g C [] C
  | reach_cons C m C' path final :
      m ∈ moves_of g C → make_move C m = Ok C' → reach g C' path final →
      reach g C (m :: path) final.

(** A configuration is finished with respect to a set of configurations:
    it is no victory and all its successors are in the set. *)
Definition finished (g : Game) (V : gset (list (list Z))) (x : list (list Z)) : Prop :=
  check_victory g x = false
  ∧ ∀ m y, m ∈ moves_of g x → make_move x m = Ok y → y ∈ V.

(** The [for] loop of [dfs], over the moves still to try, with the
    recursive call as a parameter. *)
Section DfsFor.
Variable rec : GameSolution → list (list Z) → list (Z * Z) → outcome (bool * GameSolution).
Variable current_colors : list (list Z).
Variable path : list (Z * Z).

Fixpoint dfs_for (self : GameSolution) (todo : list (Z * Z)) {struct todo}
    : outcome (bool * GameSolution) :=
  match todo with
  | [] => Ok (false, self)
  | move :: todo =>
      next_colors ← make_move current_colors move;
      let colors_tuple := next_colors in
      if decide (colors_tuple ∉ visited_states self) then
        let self := visit self colors_tuple in
        '(r, self) ← rec self next_colors (path ++ [move]);
        if (r : bool) then Ok (true, self) else dfs_for self todo
      else dfs_for self todo
  end.
End DfsFor.

(** What a call of [dfs] guarantees, with the moves and the visited set
    spelled out. *)
Definition dfs_result (self : GameSolution) (current_colors : list (list Z))
    (path : list (Z * Z)) (r : bool) (self' : GameSolution) : Prop :=
  game self' = game self
  ∧ visited_states self ⊆ visited_states self'
  ∧ (∀ x, x ∈ visited_states self' → x ∉ visited_states self →
       ∃ p, reach (game self) current_colors p x)
  ∧ if r then
      solution_found self' = true
      ∧ ∃ suffix final, moves self' = path ++ suffix
          ∧ reach (game self) current_colors suffix final
          ∧ check_victory (game self) final = true
    else
      solution_found self' = solution_found self
      ∧ moves self' = moves self
      ∧ finished (game self) (visited_states self') current_colors
      ∧ ∀ x, x ∈ visited_states self' → x ∉ visited_states self →
          finished (game self) (visited_states self') x.

(** [x] has the tubes and the units of [C]: as many tubes, and the same
    units up to their places. *)
Definition same_units (C x : list (list Z)) : Prop :=
  length x = length C ∧ units x ≡ₚ units C.

(** All the lists of at most [k] elements taken from [alphabet]. *)
Fixpoint lists_upto (alphabet : list Z) (k : nat) : list (list Z) :=
  match k with
  | O => [[]]
  | S k => [] :: (c ← alphabet; t ← lists_upto alphabet k; [c :: t])
  end.

(** All the lists of exactly [n] elements taken from [choices]. *)
Fixpoint tuples {X : Type} (choices : list X) (n : nat) : list (list X) :=
  match n with
  | O => [[]]
  | S n => x ← choices; t ← tuples choices n; [x :: t]
  end.

(** A finite list that holds every configuration with the tubes and the
    units of [C]: the search space of the puzzle [C]. *)
Definition universe (C : list (list Z)) : list (list (list Z)) :=
  tuples (lists_upto (units C) (length (units C))) (length C).

(** How many configurations of the search space of [C] are not in [V]. *)
Definition unvisited (C : list (list Z)) (V : gset (list (list Z))) : nat :=
  size ((list_to_set (universe C) : gset (list (list Z))) ∖ V).

(** What [a_star_search] keeps true of its local state, for the start
    configuration [C]; [cur] is the configuration being expanded, if any,
    which is neither in the queue nor finished yet. *)
Definition astar_inv (self : GameSolution) (C : list (list Z))
    (cur : option (list (list Z))) (st : AStar) : Prop :=
  queue_ok st
  ∧ (∀ fv colors path, (fv, colors, path) ∈ priority_queue st →
       reach (game self) C path colors
       ∧ g st !! colors = Some (Z.of_nat (length path))
       ∧ fv = Z.of_nat (length path) + heuristic self colors)
  ∧ C ∈ visited st
  ∧ ∀ x, x ∈ visited st →
      same_units C x
      ∧ (Some x = cur
         ∨ x ∈ (λ e, e.1.2) <$> priority_queue st
         ∨ finished (game self) (visited st) x).

(** The size of what is left to do: the configurations not yet visited
    and the entries still in the queue. *)
Definition astar_left (C : list (list Z)) (st : AStar) : nat :=
  (unvisited C (visited st) + length (priority_queue st))%nat.

(** * Proofs *)

(** ** Outcomes and indices *)

Example make_move_ex1 :
  make_move [[1; 2]; [2]; []] (0, 1) = Ok [[1]; [2; 2]; []].
Proof. reflexivity. Qed.

Example make_move_negative_index :
  make_move [[1; 2]; [2]; []] (-3, -1) = Ok [[1]; [2]; [2]].
Proof. reflexivity. Qed.

Example make_move_empty_source :
  make_move [[1; 2]; []] (1, 0) = Raise IndexError.
Proof. reflexivity. Qed.

Example make_move_no_such_tube :
  make_move [[1; 2]; []] (0, 2) = Raise IndexError.
Proof. reflexivity. Qed.

Lemma py_index_of_nat {A} (l : list A) (i : nat) :
  (i < length l)%nat → py_index l (Z.of_nat i) = Ok i.
Proof.
  intros Hi. unfold py_index.
  rewrite decide_True by lia. by rewrite Nat2Z.id.
Qed.

Lemma py_index_lt {A} (l : list A) (i : Z) (k : nat) :
  py_index l i = Ok k → (k < length l)%nat.
Proof.
  unfold py_index. repeat case_decide; intros [= <-]; lia.
Qed.

Lemma py_index_length {A B} (l : list A) (l' : list B) (i : Z) :
  length l = length l' → py_index l i = py_index l' i.
Proof. unfold py_index. by intros ->. Qed.

Lemma py_get_index {A} (l : list A) (i : Z) (k : nat) (x : A) :
  py_index l i = Ok k → l !! k = Some x → py_get l i = Ok x.
Proof. unfold py_get. intros -> Hk. simpl. by rewrite Hk. Qed.

Lemma list_pop_snoc {A} (l : list A) (x : A) : list_pop (l ++ [x]) = Ok (l, x).
Proof. unfold list_pop. by rewrite last_snoc, removelast_last. Qed.

(** ** The move generator *)

Lemma foldl_ext {A B} (f1 f2 : A → B → A) (l : list B) (a : A) :
  (∀ a x, f1 a x = f2 a x) → foldl f1 a l = foldl f2 a l.
Proof.
  intros Hf. revert a. induction l as [|x l IH]; intros a; simpl; [done|].
  by rewrite Hf, IH.
Qed.

Lemma foldl_snoc_bind {A B} (F : B → list A) (l : list B) (acc : list A) :
  foldl (λ acc x, acc ++ F x) acc l = acc ++ (l ≫= F).
Proof.
  revert acc. induction l as [|x l IH]; intros acc; simpl.
  - by rewrite app_nil_r.
  - by rewrite IH, app_assoc.
Qed.

Lemma foldl_snoc_filter {A B} (P : B → bool) (fn : B → A) (l : list B) (acc : list A) :
  foldl (λ acc x, if P x then acc ++ [fn x] else acc) acc l
  = acc ++ (fn <$> filter (λ x, Is_true (P x)) l).
Proof.
  revert acc. induction l as [|x l IH]; intros acc; simpl.
  - by rewrite app_nil_r.
  - rewrite IH. rewrite filter_cons. destruct (P x) eqn:HP.
    + rewrite decide_True by done. rewrite fmap_cons, <- app_assoc. done.
    + by destruct (decide (Is_true false)).
Qed.

Lemma get_possible_moves_bind (self : GameSolution) (tube_colors : list (list Z)) :
  get_possible_moves self tube_colors
  = seq 0 (length tube_colors) ≫= moves_from (NColorInTube (game self)) tube_colors.
Proof.
  unfold get_possible_moves.
  rewrite <- (app_nil_l (_ ≫= _)), <- foldl_snoc_bind.
  apply foldl_ext. intros acc i. unfold moves_from. case_bool_decide.
  - apply foldl_snoc_filter.
  - by rewrite app_nil_r.
Qed.

Lemma can_pour_legal (capacity : Z) (tube_colors : list (list Z)) (i j : nat) :
  (i < length tube_colors)%nat → (j < length tube_colors)%nat →
  tube_colors !!! i ≠ [] ∧ Is_true (can_pour capacity tube_colors i j)
  ↔ legal capacity tube_colors i j.
Proof.
  intros Hi Hj.
  destruct (lookup_lt_is_Some_2 _ _ Hi) as [ti Hti].
  destruct (lookup_lt_is_Some_2 _ _ Hj) as [tj Htj].
  unfold can_pour, legal.
  rewrite (list_lookup_total_correct _ _ _ Hti), (list_lookup_total_correct _ _ _ Htj).
  rewrite andb_True, orb_True, andb_True, !bool_decide_spec.
  split.
  - intros (Hne & Hij & H). split; [done|]. exists ti, tj. naive_solver.
  - intros (Hij & ti' & tj' & Hi' & Hj' & Hne & H).
    rewrite Hti in Hi'. rewrite Htj in Hj'. naive_solver.
Qed.

Lemma elem_of_moves_from capacity (tube_colors : list (list Z)) (i : nat) (m : Z * Z) :
  (i < length tube_colors)%nat →
  m ∈ moves_from capacity tube_colors i
  ↔ ∃ j, m = (Z.of_nat i, Z.of_nat j) ∧ legal capacity tube_colors i j.
Proof.
  intros Hi. unfold moves_from. case_bool_decide as Hne.
  - rewrite list_elem_of_fmap. split.
    + intros (j & -> & Hj). apply list_elem_of_filter in Hj as [Hp Hj].
      apply elem_of_seq in Hj. exists j. split; [done|].
      apply can_pour_legal; [done|lia|done].
    + intros (j & -> & Hl). exists j. split; [done|].
      assert (j < length tube_colors)%nat as Hj.
      { destruct Hl as (_ & ? & tj & _ & Htj & _). by eapply lookup_lt_Some. }
      apply list_elem_of_filter. split.
      * by apply can_pour_legal.
      * apply elem_of_seq. lia.
  - split; [by intros ?%elem_of_nil|].
    intros (j & -> & Hl). exfalso.
    destruct Hl as (_ & ti & ? & Hti & _ & ? & _).
    by rewrite (list_lookup_total_correct _ _ _ Hti) in Hne.
Qed.

Lemma elem_of_get_possible_moves (self : GameSolution) (tube_colors : list (list Z))
    (m : Z * Z) :
  m ∈ get_possible_moves self tube_colors
  ↔ ∃ i j, m = (Z.of_nat i, Z.of_nat j)
           ∧ legal (NColorInTube (game self)) tube_colors i j.
Proof.
  rewrite get_possible_moves_bind, list_elem_of_bind. split.
  - intros (i & Hm & Hi). apply elem_of_seq in Hi.
    apply elem_of_moves_from in Hm as (j & -> & Hl); [|lia]. eauto.
  - intros (i & j & -> & Hl).
    assert (i < length tube_colors)%nat as Hi.
    { destruct Hl as (_ & ti & ? & Hti & _). by eapply lookup_lt_Some. }
    exists i. split.
    + apply elem_of_moves_from; eauto.
    + apply elem_of_seq. lia.
Qed.

Lemma StronglySorted_bind {A B} (R : relation A) (R0 : relation B)
    (F : B → list A) (l : list B) :
  StronglySorted R0 l →
  (∀ x, x ∈ l → StronglySorted R (F x)) →
  (∀ x y a b, R0 x y → a ∈ F x → b ∈ F y → R a b) →
  StronglySorted R (l ≫= F).
Proof.
  intros Hl HF HR. induction Hl as [|x l Hl IH Hx]; simpl; [constructor|].
  apply StronglySorted_app_2.
  - intros a b Ha Hb. apply list_elem_of_bind in Hb as (y & Hb & Hy).
    eapply HR; [|done..]. eapply Forall_forall in Hx; done.
  - apply HF. left.
  - apply IH. intros y Hy. apply HF. by right.
Qed.

Lemma StronglySorted_seq (j n : nat) : StronglySorted lt (seq j n).
Proof.
  revert j. induction n as [|n IH]; intros j; simpl; constructor; [done|].
  apply Forall_seq. lia.
Qed.

Lemma StronglySorted_filter {A} (R : relation A) (P : A → Prop)
    `{∀ x, Decision (P x)} (l : list A) :
  StronglySorted R l → StronglySorted R (filter P l).
Proof.
  induction 1 as [|x l Hl IH Hx]; [constructor|].
  rewrite filter_cons. case_decide; [|done].
  constructor; [done|]. apply Forall_forall. intros y Hy.
  apply list_elem_of_filter in Hy as [_ Hy]. eapply Forall_forall in Hx; done.
Qed.

Lemma moves_from_sorted capacity (tube_colors : list (list Z)) (i : nat) :
  StronglySorted move_before (moves_from capacity tube_colors i).
Proof.
  unfold moves_from. case_bool_decide; [|constructor].
  apply StronglySorted_fmap with (R1 := lt).
  - intros j1 j2 Hj. right. simpl. lia.
  - apply StronglySorted_filter, StronglySorted_seq.
Qed.

Lemma moves_from_fst capacity (tube_colors : list (list Z)) (i : nat) (m : Z * Z) :
  m ∈ moves_from capacity tube_colors i → m.1 = Z.of_nat i.
Proof.
  unfold moves_from. case_bool_decide; [|by intros ?%elem_of_nil].
  intros (j & -> & _)%list_elem_of_fmap. done.
Qed.

(** C2. [get_possible_moves] returns exactly the legal moves: the pairs
    [(i, j)] with [i ≠ j], tube [i] non-empty, and tube [j] empty or below
    capacity with the top color of tube [i]; they come in ascending order of
    the source index and, for one source, of the destination index. *)
Theorem get_possible_moves_spec (self : GameSolution) (tube_colors : list (list Z)) :
  (∀ m, m ∈ get_possible_moves self tube_colors
        ↔ ∃ i j, m = (Z.of_nat i, Z.of_nat j)
                 ∧ legal (NColorInTube (game self)) tube_colors i j)
  ∧ StronglySorted move_before (get_possible_moves self tube_colors).
Proof.
  split; [apply elem_of_get_possible_moves|].
  rewrite get_possible_moves_bind.
  apply StronglySorted_bind with (R0 := lt).
  - apply StronglySorted_seq.
  - intros i _. apply moves_from_sorted.
  - intros i1 i2 a b Hi Ha Hb. left.
    rewrite (moves_from_fst _ _ _ _ Ha), (moves_from_fst _ _ _ _ Hb). lia.
Qed.

(** ** Applying a move *)

Lemma make_move_Ok (tube_colors : list (list Z)) (src dst : Z) (s d : nat)
    (init : list Z) (c : Z) :
  py_index tube_colors src = Ok s →
  py_index tube_colors dst = Ok d →
  tube_colors !! s = Some (init ++ [c]) →
  ∃ td, (<[s := init]> tube_colors) !! d = Some td ∧
    make_move tube_colors (src, dst)
    = Ok (<[d := td ++ [c]]> (<[s := init]> tube_colors)).
Proof.
  intros Hs Hd Hts.
  assert (d < length (<[s := init]> tube_colors))%nat as Hlt.
  { rewrite length_insert. by eapply py_index_lt. }
  destruct (lookup_lt_is_Some_2 _ _ Hlt) as [td Htd].
  exists td. split; [done|].
  unfold make_move. rewrite Hs. simpl.
  rewrite (py_get_index _ _ _ _ Hs Hts). simpl.
  rewrite list_pop_snoc. simpl.
  assert (py_index (<[s := init]> tube_colors) dst = Ok d) as Hd'.
  { rewrite <- Hd. apply py_index_length. by rewrite length_insert. }
  rewrite Hd'. simpl. rewrite (py_get_index _ _ _ _ Hd' Htd). done.
Qed.

Lemma make_move_poured (tube_colors : list (list Z)) (src dst : Z) (s d : nat)
    (init : list Z) (c : Z) :
  py_index tube_colors src = Ok s →
  py_index tube_colors dst = Ok d →
  tube_colors !! s = Some (init ++ [c]) →
  ∃ after, make_move tube_colors (src, dst) = Ok after
           ∧ poured tube_colors after s d.
Proof.
  intros Hs Hd Hts.
  destruct (make_move_Ok _ _ _ _ _ _ _ Hs Hd Hts) as (td & Htd & ->).
  eexists. split; [done|].
  assert (d < length (<[s := init]> tube_colors))%nat as Hlt
    by (by eapply lookup_lt_Some).
  split; [by rewrite !length_insert|]. split.
  - intros k Hks Hkd. by rewrite !list_lookup_insert_ne.
  - exists init, c, td. split; [done|]. split; [done|]. split.
    + by rewrite list_lookup_insert_eq.
    + intros Hsd. rewrite list_lookup_insert_ne by done.
      rewrite list_lookup_insert_eq; [done|]. by eapply lookup_lt_Some.
Qed.

(** What a generated move does: the source loses its top, which lands on
    the destination. *)
Lemma make_move_legal (self : GameSolution) (tube_colors : list (list Z)) (m : Z * Z) :
  m ∈ get_possible_moves self tube_colors →
  ∃ (i j : nat) init c tj,
    m = (Z.of_nat i, Z.of_nat j) ∧ i ≠ j ∧
    tube_colors !! i = Some (init ++ [c]) ∧ tube_colors !! j = Some tj ∧
    (tj = [] ∨ Z.of_nat (length tj) < NColorInTube (game self)) ∧
    make_move tube_colors m = Ok (<[j := tj ++ [c]]> (<[i := init]> tube_colors)).
Proof.
  intros (i & j & -> & Hij & ti & tj & Hti & Htj & Hne & Hdst)
    %elem_of_get_possible_moves.
  destruct (last ti) as [c|] eqn:Hlast; [|by apply last_None in Hlast].
  apply last_Some in Hlast as [init ->].
  exists i, j, init, c, tj. repeat split; try done.
  - destruct Hdst as [?|[? _]]; [by left|by right].
  - destruct (make_move_Ok tube_colors (Z.of_nat i) (Z.of_nat j) i j init c)
      as (td & Htd & ->); try done.
    + apply py_index_of_nat. by eapply lookup_lt_Some.
    + apply py_index_of_nat. by eapply lookup_lt_Some.
    + rewrite list_lookup_insert_ne in Htd by done. congruence.
Qed.

Lemma concat_insert_perm {A} (l : list (list A)) (i : nat) (x y : list A) :
  l !! i = Some y → concat (<[i := x]> l) ++ y ≡ₚ concat l ++ x.
Proof.
  intros Hi. rewrite insert_take_drop by (by eapply lookup_lt_Some).
  rewrite <- (take_drop_middle l i y Hi) at 3.
  rewrite !concat_app, !concat_cons. solve_Permutation.
Qed.

Lemma units_pour (tube_colors : list (list Z)) (i j : nat) (init tj : list Z) (c : Z) :
  i ≠ j →
  tube_colors !! i = Some (init ++ [c]) → tube_colors !! j = Some tj →
  units (<[j := tj ++ [c]]> (<[i := init]> tube_colors)) ≡ₚ units tube_colors.
Proof.
  intros Hij Hi Hj. unfold units.
  assert (<[i := init]> tube_colors !! j = Some tj) as Hj'
    by (by rewrite list_lookup_insert_ne).
  pose proof (concat_insert_perm _ _ (tj ++ [c]) _ Hj') as H2.
  pose proof (concat_insert_perm _ _ init _ Hi) as H1.
  apply (Permutation_app_inv_r (tj ++ init)).
  rewrite (app_assoc _ tj init), H2.
  rewrite <- (app_assoc _ (tj ++ [c]) init), <- (app_assoc tj [c] init).
  rewrite (Permutation_app_comm [c] init).
  rewrite (Permutation_app_comm tj (init ++ [c])).
  rewrite (app_assoc _ (init ++ [c]) tj), H1.
  rewrite <- !app_assoc. by rewrite (Permutation_app_comm init tj).
Qed.

(** C3. A generated move conserves the colored units: the units of the
    new configuration are a rearrangement of the old ones, so their total
    number and the number of units of each color are unchanged. *)
Theorem make_move_conserves (self : GameSolution) (tube_colors : list (list Z))
    (m : Z * Z) :
  m ∈ get_possible_moves self tube_colors →
  ∃ next_colors, make_move tube_colors m = Ok next_colors
    ∧ units next_colors ≡ₚ units tube_colors
    ∧ length (units next_colors) = length (units tube_colors)
    ∧ ∀ c, count_color c next_colors = count_color c tube_colors.
Proof.
  intros (i & j & init & c & tj & -> & Hij & Hi & Hj & _ & ->)%make_move_legal.
  eexists. split; [done|].
  pose proof (units_pour _ _ _ _ _ _ Hij Hi Hj) as Hp.
  split; [done|]. split.
  - by rewrite Hp.
  - intros c'. unfold count_color. by rewrite Hp.
Qed.

(** C10. From a configuration whose tubes are within capacity, a
    generated move never pops an empty tube, and the tubes of the result are
    within capacity. *)
Theorem make_move_within_capacity (self : GameSolution)
    (tube_colors : list (list Z)) (m : Z * Z) :
  within_capacity (NColorInTube (game self)) tube_colors →
  m ∈ get_possible_moves self tube_colors →
  ∃ next_colors, make_move tube_colors m = Ok next_colors
    ∧ within_capacity (NColorInTube (game self)) next_colors.
Proof.
  intros Hcap (i & j & init & c & tj & -> & Hij & Hi & Hj & Hroom & ->)
    %make_move_legal.
  eexists. split; [done|].
  unfold within_capacity in *.
  pose proof (Forall_lookup_1 _ _ _ _ Hcap Hi) as Hleni. simpl in Hleni.
  rewrite length_app in Hleni. simpl in Hleni.
  apply Forall_insert; [apply Forall_insert; [done|lia]|].
  rewrite length_app. simpl. destruct Hroom as [->|Hroom]; simpl; lia.
Qed.

(** ** The heuristic *)

Lemma distinct_remove_dups (tube : list Z) :
  distinct tube = Z.of_nat (length (remove_dups tube)).
Proof.
  unfold distinct. f_equal.
  rewrite <- (size_list_to_set (C := gset Z)) by apply NoDup_remove_dups.
  f_equal. apply set_eq. intros x.
  by rewrite !elem_of_list_to_set, elem_of_remove_dups.
Qed.

Lemma distinct_pos (tube : list Z) : tube ≠ [] → 0 < distinct tube.
Proof.
  destruct tube as [|c tube]; [done|]. intros _. unfold distinct.
  assert (size (list_to_set (c :: tube) : gset Z) ≠ 0%nat); [|lia].
  intros Hsz%size_empty_inv. set_solver.
Qed.

Lemma heuristic_loop (capacity : Z) (tube_colors : list (list Z)) (a b : Z) :
  foldl (λ '(misplaced_tubes, incomplete_tubes) tube,
      let misplaced_tubes :=
        if bool_decide (tube ≠ []) && bool_decide (1 < distinct tube)
        then misplaced_tubes + 1 else misplaced_tubes in
      let incomplete_tubes :=
        if bool_decide (tube ≠ []) &&
           (bool_decide (0 < distinct tube) && bool_decide (distinct tube < capacity))
        then incomplete_tubes + 1 else incomplete_tubes in
      (misplaced_tubes, incomplete_tubes)) (a, b) tube_colors
  = (a + Z.of_nat (length (filter misplaced tube_colors)),
     b + Z.of_nat (length (filter (incomplete capacity) tube_colors))).
Proof.
  revert a b. induction tube_colors as [|tube l IH]; intros a b; simpl.
  { f_equal; lia. }
  rewrite IH, !filter_cons. f_equal.
  - destruct (decide (misplaced tube)) as [[Hne Hd]|Hn].
    + rewrite (bool_decide_eq_true_2 _ Hne), bool_decide_eq_true_2 by lia.
      simpl. lia.
    + destruct (decide (tube ≠ [])) as [Hne|He].
      * rewrite (bool_decide_eq_true_2 _ Hne), bool_decide_eq_false_2; simpl; [lia|].
        intros ?. apply Hn. split; [done|lia].
      * by rewrite (bool_decide_eq_false_2 _ He).
  - destruct (decide (incomplete capacity tube)) as [[Hne Hd]|Hn].
    + rewrite (bool_decide_eq_true_2 _ Hne), (bool_decide_eq_true_2 _ Hd).
      rewrite bool_decide_eq_true_2 by (by apply distinct_pos). simpl. lia.
    + destruct (decide (tube ≠ [])) as [Hne|He].
      * rewrite (bool_decide_eq_true_2 _ Hne).
        rewrite (bool_decide_eq_false_2 (distinct tube < capacity)).
        -- by rewrite andb_false_r.
        -- intros ?. by apply Hn.
      * by rewrite (bool_decide_eq_false_2 _ He).
Qed.

(** C5. [heuristic] is the number of non-empty tubes with at least two
    distinct colors plus the number of non-empty tubes with fewer than
    [NColorInTube] distinct colors, each counted on its own and the two
    counts summed; it is never negative. *)
Theorem heuristic_formula (self : GameSolution) (tube_colors : list (list Z)) :
  heuristic self tube_colors = heuristic_spec (NColorInTube (game self)) tube_colors
  ∧ 0 ≤ heuristic self tube_colors.
Proof.
  assert (heuristic self tube_colors
          = heuristic_spec (NColorInTube (game self)) tube_colors) as ->.
  { unfold heuristic, heuristic_spec. by rewrite heuristic_loop. }
  split; [done|]. unfold heuristic_spec. lia.
Qed.

(** ** Exhaustive search *)

Lemma dfs_spec (fuel : nat) (self : GameSolution) (current_colors : list (list Z))
    (path : list (Z * Z)) (r : bool) (self' : GameSolution) :
  dfs fuel self current_colors path = Ok (r, self') →
  dfs_post self current_colors path r self'.
Proof.
  revert self current_colors path r self'.
  induction fuel as [|fuel IH]; intros self cur path r self'; simpl; [done|].
  unfold is_victory. destruct (check_victory (game self) cur) eqn:Hv.
  { intros [= <- <-]. split; [done|]. split; [done|]. split; [done|].
    exists [], cur. by rewrite app_nil_r. }
  assert (∀ todo s,
    game s = game self →
    (fix for_move (self0 : GameSolution) (todo : list (Z * Z)) {struct todo}
       : outcome (bool * GameSolution) :=
       match todo with
       | [] => Ok (false, self0)
       | move :: todo0 =>
           next_colors ← make_move cur move;
           if decide (next_colors ∉ visited_states self0)
           then
             '(r0, self1) ← dfs fuel (visit self0 next_colors) next_colors
                              (path ++ [move]);
             if (r0 : bool) then Ok (true, self1) else for_move self1 todo0
           else for_move self0 todo0
       end) s todo = Ok (r, self') →
    dfs_post s cur path r self') as Hloop.
  { intros todo. induction todo as [|m todo IHtodo]; intros s Hg.
    - intros [= <- <-]. by repeat split.
    - destruct (make_move cur m) as [next| |] eqn:Hm; simpl; [|done..].
      case_decide as Hvis; [|by apply IHtodo].
      destruct (dfs fuel (visit s next) next (path ++ [m]))
        as [[r0 s1]| |] eqn:Hd; simpl; [|done..].
      apply IH in Hd as (Hg1 & Hsub1 & Hpost). simpl in Hg1, Hsub1.
      destruct r0.
      + intros [= <- <-]. destruct Hpost as (Hf & suffix & final & Hmv & Hr & Hvic).
        split; [done|].
        split; [etrans; [|exact Hsub1]; apply union_subseteq_r|].
        split; [done|].
        exists (m :: suffix), final. split; [by rewrite Hmv, <- app_assoc|].
        split; [simpl; by rewrite Hm|done].
      + intros Hrest. apply IHtodo in Hrest as (Hg2 & Hsub2 & Hpost2);
          [|congruence].
        split; [congruence|].
        split; [etrans; [|exact Hsub2]; etrans; [|exact Hsub1];
                apply union_subseteq_r|].
        destruct Hpost as [Hf1 Hm1]. simpl in Hf1, Hm1.
        destruct r.
        * destruct Hpost2 as (? & suffix & final & ? & ? & ?).
          split; [done|]. exists suffix, final. repeat split; try done.
          congruence.
        * destruct Hpost2 as [? ?]. split; congruence. }
  intros Hrun. by apply Hloop in Hrun.
Qed.

(** C1. When [solve], started with the flag [solution_found] down, ends
    with the flag up, the path it has recorded in [moves] replays from the
    initial configuration, move by move through [make_move], to a
    configuration that [is_victory] accepts. *)
Theorem solve_sound (fuel : nat) (self self' : GameSolution)
    (tube_colors : list (list Z)) :
  solution_found self = false →
  solve fuel self tube_colors = Ok self' →
  solution_found self' = true →
  ∃ final, replay tube_colors (moves self') = Ok final
           ∧ is_victory self' final = true.
Proof.
  intros Hfresh Hrun Hfound. unfold solve in Hrun.
  destruct (dfs fuel (visit self tube_colors) tube_colors [])
    as [[r s]| |] eqn:Hd; simpl in Hrun; [|done..].
  injection Hrun as ->.
  apply dfs_spec in Hd as (Hg & _ & Hpost). destruct r.
  - destruct Hpost as (_ & suffix & final & Hmv & Hr & Hvic).
    simpl in Hmv. subst suffix. exists final. split; [done|].
    unfold is_victory. by rewrite Hg.
  - destruct Hpost as [Hf _]. simpl in Hf. congruence.
Qed.

(** ** [make_move] on the store *)

Lemma tube_at_Some (σ : gmap positive Store.obj) (l : positive) (t : list Z) :
  Store.tube_at σ l = Some t ↔ σ !! l = Some (Store.Ints t).
Proof.
  unfold Store.tube_at. destruct (σ !! l) as [[?|?]|]; split; congruence.
Qed.

Lemma alloc_fresh (σ σ' : gmap positive Store.obj) (o : Store.obj) (l : positive) :
  Store.alloc σ o = (l, σ') → σ !! l = None ∧ σ' = <[l := o]> σ.
Proof.
  unfold Store.alloc. intros [= <- <-]. split; [|done].
  apply not_elem_of_dom, is_fresh.
Qed.

(** The list comprehension allocates one new object per tube, holding the
    same ints, and touches nothing that was there. *)
Lemma copy_tubes_spec (σ : gmap positive Store.obj) (tubes : list positive)
    (C : list (list Z)) :
  Forall2 (λ l t, Store.tube_at σ l = Some t) tubes C →
  ∃ ls σ', Store.copy_tubes σ tubes = Ok (ls, σ')
    ∧ σ ⊆ σ'
    ∧ NoDup ls
    ∧ Forall (λ l, σ !! l = None) ls
    ∧ Forall2 (λ l t, Store.tube_at σ' l = Some t) ls C.
Proof.
  intros HC. revert σ C HC.
  induction tubes as [|tube tubes IH]; intros σ C HC.
  { apply Forall2_nil_inv_l in HC as ->. exists [], σ.
    repeat split; (done || constructor). }
  apply Forall2_cons_inv_l in HC as (t & C' & Ht & HC & ->).
  simpl. unfold Store.get_ints. apply tube_at_Some in Ht as Ht'. rewrite Ht'. simpl.
  destruct (alloc_fresh σ _ (Store.Ints t) _ eq_refl) as [Hl _].
  set (l := fresh (dom σ)) in *. clearbody l.
  assert (σ ⊆ <[l := Store.Ints t]> σ) as Hsub by (by apply insert_subseteq).
  destruct (IH (<[l := Store.Ints t]> σ) C') as (ls & σ' & Hcp & Hsub' & Hnd & Hfr & Hat).
  { eapply Forall2_impl; [exact HC|]. intros l' t' Hl'. simpl in Hl'.
    apply tube_at_Some. apply tube_at_Some in Hl'.
    by eapply lookup_weaken. }
  rewrite Hcp. simpl. exists (l :: ls), σ'. split; [done|]. split; [by etrans|].
  assert (Forall (λ l0, l0 ≠ l ∧ σ !! l0 = None) ls) as Hfr'.
  { eapply Forall_impl; [exact Hfr|]. intros l' Hl'. simpl in Hl'.
    apply lookup_insert_None in Hl' as [? ?]. done. }
  split; [|split].
  - constructor; [|done]. intros Hin.
    eapply Forall_forall in Hfr'; [|exact Hin]. by destruct Hfr'.
  - constructor; [done|]. eapply Forall_impl; [exact Hfr'|]. by intros ? [_ ?].
  - constructor; [|done]. apply tube_at_Some.
    eapply lookup_weaken; [|exact Hsub']. apply lookup_insert_eq.
Qed.

Lemma tubes_at_insert (σ : gmap positive Store.obj) (ls : list positive)
    (C : list (list Z)) (k : nat) (l : positive) (t : list Z) :
  NoDup ls → ls !! k = Some l →
  Forall2 (λ l t, Store.tube_at σ l = Some t) ls C →
  Forall2 (λ l' t', Store.tube_at (<[l := Store.Ints t]> σ) l' = Some t')
          ls (<[k := t]> C).
Proof.
  intros Hnd Hk HC.
  apply Forall2_same_length_lookup_2.
  { rewrite length_insert. by eapply Forall2_length. }
  intros i l' t' Hl' Ht'. apply tube_at_Some.
  destruct (decide (i = k)) as [->|Hik].
  - assert (l' = l) as -> by congruence.
    rewrite list_lookup_insert_eq in Ht'.
    + injection Ht' as ->. apply lookup_insert_eq.
    + erewrite <- Forall2_length by exact HC. by eapply lookup_lt_Some.
  - rewrite list_lookup_insert_ne in Ht' by done.
    rewrite lookup_insert_ne.
    + apply tube_at_Some. eapply Forall2_lookup_lr in HC; done.
    + intros <-. apply Hik. symmetry. by eapply NoDup_lookup.
Qed.

Lemma config_at_Some (σ : gmap positive Store.obj) (r : positive) (C : list (list Z)) :
  Store.config_at σ r = Some C
  ↔ ∃ tubes, σ !! r = Some (Store.Refs tubes)
             ∧ Forall2 (λ l t, Store.tube_at σ l = Some t) tubes C.
Proof.
  unfold Store.config_at. destruct (σ !! r) as [[?|tubes]|].
  - split; [done|]. by intros (? & ? & _).
  - rewrite mapM_Some. split; [by exists tubes|]. by intros (? & [= <-] & ?).
  - split; [done|]. by intros (? & ? & _).
Qed.

Lemma tubes_at_weaken (σ σ' : gmap positive Store.obj) (ls : list positive)
    (C : list (list Z)) :
  σ ⊆ σ' →
  Forall2 (λ l t, Store.tube_at σ l = Some t) ls C →
  Forall2 (λ l t, Store.tube_at σ' l = Some t) ls C.
Proof.
  intros Hsub HC. eapply Forall2_impl; [exact HC|]. intros l t Hl. simpl in Hl.
  apply tube_at_Some. apply tube_at_Some in Hl. by eapply lookup_weaken.
Qed.

Lemma get_ints_Ok (σ : gmap positive Store.obj) (l : positive) (t : list Z) :
  σ !! l = Some (Store.Ints t) → Store.get_ints σ l = Ok t.
Proof. unfold Store.get_ints. by intros ->. Qed.

Lemma store_make_move_Ok (σ : gmap positive Store.obj) (tube_colors : positive)
    (C : list (list Z)) (src dst : Z) (s d : nat) (init td : list Z) (c : Z) :
  Store.config_at σ tube_colors = Some C →
  py_index C src = Ok s → py_index C dst = Ok d →
  C !! s = Some (init ++ [c]) →
  (<[s := init]> C) !! d = Some td →
  ∃ new_tube_colors σ',
    Store.make_move σ tube_colors (src, dst) = Ok (new_tube_colors, σ')
    ∧ σ !! new_tube_colors = None
    ∧ Store.config_at σ' new_tube_colors
      = Some (<[d := td ++ [c]]> (<[s := init]> C))
    ∧ σ ⊆ σ'.
Proof.
  intros HC Hs Hd Hts Htd.
  apply config_at_Some in HC as (tubes & Hr & HC).
  destruct (copy_tubes_spec _ _ _ HC) as (ls & σ1 & Hcp & Hsub1 & Hnd & Hfr & Hat).
  pose proof (Forall2_length _ _ _ Hat) as Hlen.
  unfold Store.make_move, Store.get_refs. rewrite Hr. simpl. rewrite Hcp. simpl.
  destruct (alloc_fresh σ1 _ (Store.Refs ls) _ eq_refl) as [Hnew _].
  set (new := fresh (dom σ1)) in *. clearbody new.
  set (σ2 := <[new := Store.Refs ls]> σ1).
  assert (σ1 ⊆ σ2) as Hsub2 by (by apply insert_subseteq).
  assert (Forall2 (λ l t, Store.tube_at σ2 l = Some t) ls C) as Hat2
    by (by eapply tubes_at_weaken).
  (* the source tube *)
  assert (py_index ls src = Ok s) as Hs'
    by (rewrite <- Hs; by apply py_index_length).
  destruct (lookup_lt_is_Some_2 ls s) as [lsrc Hlsrc];
    [rewrite Hlen; by eapply lookup_lt_Some|].
  rewrite (py_get_index _ _ _ _ Hs' Hlsrc). simpl.
  assert (σ2 !! lsrc = Some (Store.Ints (init ++ [c]))) as Hsrc.
  { apply tube_at_Some. eapply Forall2_lookup_lr in Hat2; done. }
  rewrite (get_ints_Ok _ _ _ Hsrc). simpl. rewrite list_pop_snoc. simpl.
  set (σ3 := <[lsrc := Store.Ints init]> σ2).
  assert (Forall2 (λ l t, Store.tube_at σ3 l = Some t) ls (<[s := init]> C)) as Hat3
    by (by apply tubes_at_insert).
  (* the destination tube *)
  assert (py_index ls dst = Ok d) as Hd'
    by (rewrite <- Hd; by apply py_index_length).
  destruct (lookup_lt_is_Some_2 ls d) as [ldst Hldst];
    [rewrite Hlen; by eapply py_index_lt|].
  rewrite (py_get_index _ _ _ _ Hd' Hldst). simpl.
  assert (σ3 !! ldst = Some (Store.Ints td)) as Hdst.
  { apply tube_at_Some. eapply Forall2_lookup_lr in Hat3; done. }
  fold σ3. rewrite (get_ints_Ok _ _ _ Hdst). simpl.
  set (σ4 := <[ldst := Store.Ints (td ++ [c])]> σ3).
  assert (Forall2 (λ l t, Store.tube_at σ4 l = Some t) ls
            (<[d := td ++ [c]]> (<[s := init]> C))) as Hat4
    by (by apply tubes_at_insert).
  (* the new objects are apart from the old ones *)
  assert (∀ l, l ∈ ls → σ1 !! l ≠ None ∧ σ !! l = None) as Hls.
  { intros l Hl. split.
    - apply list_elem_of_lookup in Hl as [k Hk].
      destruct (Forall2_lookup_l _ _ _ _ _ Hat Hk) as (t & _ & Ht).
      apply tube_at_Some in Ht. congruence.
    - eapply Forall_forall in Hfr; done. }
  assert (lsrc ∈ ls) as Hin_s by (by eapply list_elem_of_lookup_2).
  assert (ldst ∈ ls) as Hin_d by (by eapply list_elem_of_lookup_2).
  assert (σ4 !! new = Some (Store.Refs ls)) as Hnew4.
  { unfold σ4, σ3, σ2.
    rewrite lookup_insert_ne by (intros ->; destruct (Hls _ Hin_d); congruence).
    rewrite lookup_insert_ne by (intros ->; destruct (Hls _ Hin_s); congruence).
    apply lookup_insert_eq. }
  assert (σ ⊆ σ4) as Hsub4.
  { apply map_subseteq_spec. intros l o Hl. unfold σ4, σ3, σ2.
    rewrite lookup_insert_ne by (intros ->; destruct (Hls _ Hin_d); congruence).
    rewrite lookup_insert_ne by (intros ->; destruct (Hls _ Hin_s); congruence).
    rewrite lookup_insert_ne.
    - by eapply lookup_weaken.
    - intros ->. eapply lookup_weaken in Hl; [|exact Hsub1]. congruence. }
  exists new, σ4. split; [done|]. split.
  { destruct (σ !! new) eqn:E; [|done].
    eapply lookup_weaken in E; [|exact Hsub1]. congruence. }
  split; [apply config_at_Some; eauto|done].
Qed.

(** C4. [make_move] builds its result out of new objects: from a store
    where [tube_colors] denotes the configuration [C], with [src] and [dst]
    indexing tubes of [C] and the source tube non-empty, the call returns a
    reference that was not in the store, denoting [C] with the last unit of
    the source tube removed and appended to the destination tube; every
    object of the initial store, so [C] and each of its tubes, is unchanged. *)
Theorem make_move_pure (σ : gmap positive Store.obj) (tube_colors : positive)
    (C : list (list Z)) (src dst : Z) (s d : nat) (ts : list Z) :
  Store.config_at σ tube_colors = Some C →
  py_index C src = Ok s → py_index C dst = Ok d →
  C !! s = Some ts → ts ≠ [] →
  ∃ new_tube_colors σ' C',
    Store.make_move σ tube_colors (src, dst) = Ok (new_tube_colors, σ')
    ∧ σ !! new_tube_colors = None
    ∧ Store.config_at σ' new_tube_colors = Some C'
    ∧ make_move C (src, dst) = Ok C'
    ∧ poured C C' s d
    ∧ σ ⊆ σ'
    ∧ Store.config_at σ' tube_colors = Some C.
Proof.
  intros HC Hs Hd Hts Hne.
  destruct (last ts) as [c|] eqn:Hlast; [|by apply last_None in Hlast].
  apply last_Some in Hlast as [init ->]. clear Hne.
  destruct (make_move_Ok _ _ _ _ _ _ _ Hs Hd Hts) as (td & Htd & Hmv).
  destruct (make_move_poured _ _ _ _ _ _ _ Hs Hd Hts) as (C' & Hmv' & Hpoured).
  destruct (store_make_move_Ok _ _ _ _ _ _ _ _ _ _ HC Hs Hd Hts Htd)
    as (new & σ' & Hrun & Hnew & Hat & Hsub).
  exists new, σ', C'. rewrite Hmv in Hmv'. injection Hmv' as <-.
  repeat (split; [done|]).
  apply config_at_Some in HC as (tubes & Hr & HC).
  apply config_at_Some. exists tubes. split.
  - by eapply lookup_weaken.
  - by eapply tubes_at_weaken.
Qed.

(** ** Runs of the two searches *)

Lemma a_star_init_Ok (self : GameSolution) (start_colors : list (list Z)) :
  ∃ st, a_star_init self start_colors = Ok st
    ∧ priority_queue st = [(0 + heuristic self start_colors, start_colors, [])].
Proof.
  unfold a_star_init, dict_get. rewrite !lookup_singleton_eq. simpl.
  rewrite lookup_singleton_eq. simpl. eauto.
Qed.

Lemma dfs_victory (fuel : nat) (self : GameSolution) (tube_colors : list (list Z))
    (path : list (Z * Z)) :
  is_victory self tube_colors = true →
  dfs (S fuel) self tube_colors path = Ok (true, found self path).
Proof. simpl. by intros ->. Qed.

Lemma a_star_search_victory (fuel : nat) (self : GameSolution)
    (tube_colors : list (list Z)) :
  is_victory self tube_colors = true →
  a_star_search (S fuel) self tube_colors = Ok (true, found self []).
Proof.
  intros Hv. unfold a_star_search.
  destruct (a_star_init_Ok self tube_colors) as (st & -> & Hq). simpl.
  rewrite Hq. simpl. by rewrite Hv.
Qed.

Lemma dfs_stuck (fuel : nat) (self : GameSolution) (tube_colors : list (list Z))
    (path : list (Z * Z)) :
  is_victory self tube_colors = false →
  get_possible_moves self tube_colors = [] →
  dfs (S fuel) self tube_colors path = Ok (false, self).
Proof. simpl. by intros -> ->. Qed.

Lemma a_star_search_stuck (fuel : nat) (self : GameSolution)
    (tube_colors : list (list Z)) :
  is_victory self tube_colors = false →
  get_possible_moves self tube_colors = [] →
  a_star_search (S fuel) self tube_colors = Ok (false, self).
Proof.
  intros Hv Hm. unfold a_star_search.
  destruct (a_star_init_Ok self tube_colors) as (st & -> & Hq). simpl.
  rewrite Hq. simpl. rewrite Hv, Hm. simpl. by destruct fuel.
Qed.

(** C8. On [[A, A], []], a configuration that the game's victory test
    accepts, both [solve] and [optimal_solve] end with [solution_found] up
    and an empty list of moves. *)
Theorem already_won (g : Game) (A : Z) (fuel : nat) :
  check_victory g [[A; A]; []] = true →
  ∃ s1 s2,
    solve (S fuel) (init g) [[A; A]; []] = Ok s1
    ∧ solution_found s1 = true ∧ moves s1 = []
    ∧ optimal_solve (S fuel) (init g) [[A; A]; []] = Ok s2
    ∧ solution_found s2 = true ∧ moves s2 = [].
Proof.
  intros Hv. unfold solve, optimal_solve.
  rewrite dfs_victory, a_star_search_victory by done. simpl. eauto 10.
Qed.

(** C9. On a configuration that is not a victory and has no legal move,
    both searches return normally: [dfs] and [a_star_search] answer [False],
    no exception is raised, and [solution_found], down before the call, is
    still down after it. *)
Theorem not_found_is_normal (self : GameSolution) (tube_colors : list (list Z))
    (fuel : nat) :
  solution_found self = false →
  is_victory self tube_colors = false →
  get_possible_moves self tube_colors = [] →
  ∃ s1 s2,
    dfs (S fuel) (visit self tube_colors) tube_colors [] = Ok (false, s1)
    ∧ solve (S fuel) self tube_colors = Ok s1
    ∧ solution_found s1 = false
    ∧ a_star_search (S fuel) self tube_colors = Ok (false, s2)
    ∧ optimal_solve (S fuel) self tube_colors = Ok s2
    ∧ solution_found s2 = false.
Proof.
  intros Hf Hv Hm. exists (visit self tube_colors), self.
  unfold solve, optimal_solve.
  rewrite dfs_stuck, a_star_search_stuck by done. done.
Qed.

(** ** State that outlives a call of [solve] *)

(** C7 (fails on the code). [visited_states] is created once, in
    [__init__], and [solve] only ever adds to it; [solution_found] and
    [moves] are never reset either.  With capacity 2, a first [solve] on
    [[1, 2], [2], [1]] finds the two moves of the solution.  A second
    [solve] on the same configuration through the same object searches
    nothing: the only successor is already in [visited_states] and [dfs]
    answers [False], where it answers [True] on a new object.  And a
    [solve] on the dead end [[1]], which leaves [solution_found] down on a
    new object, leaves it up after that first call, with the moves of the
    other puzzle, which do not even replay from [[1]]. *)
Theorem visited_states_outlive_solve :
  let self := init (spec_game 2) in
  let X := [[1; 2]; [2]; [1]] in
  ∃ s1 s2 s3 s4,
    solve 10 self X = Ok s1
    ∧ dfs 10 (visit self X) X [] = Ok (true, s1)
    ∧ moves s1 = [(0, 1); (0, 2)]
    ∧ visited_states s1
      = {[ X; [[1]; [2; 2]; [1]]; [[]; [2; 2]; [1; 1]] ]}
    ∧ dfs 10 (visit s1 X) X [] = Ok (false, s2)
    ∧ solve 10 self [[1]] = Ok s3
    ∧ solution_found s3 = false
    ∧ solve 10 s1 [[1]] = Ok s4
    ∧ solution_found s4 = true
    ∧ moves s4 = [(0, 1); (0, 2)]
    ∧ replay [[1]] (moves s4) = Raise IndexError.
Proof.
  intros self X.
  set (s1 := found (visit (visit (visit self X) [[1]; [2; 2]; [1]])
                      [[]; [2; 2]; [1; 1]]) [(0, 1); (0, 2)]).
  exists s1, (visit s1 X), (visit self [[1]]), (visit s1 [[1]]).
  repeat split; vm_compute; reflexivity.
Qed.

(** ** The order in which the frontier is emptied *)

(** C6 (fails on the code). With capacity 2, [optimal_solve] on
    [[1], [], []] pops the start entry and pushes the entries of the moves
    [(0, 1)], then [(0, 2)]; both have [f = 2].  The next [heappop] returns
    the entry of [(0, 2)], the one inserted last: [heapq] compares the
    tuples, and [[], [], [1]] is smaller than [[], [1], []]. *)
Lemma tie_break_not_insertion_order :
  let self := init (spec_game 2) in
  let start := [[1]; []; []] in
  let c1 := [[]; [1]; []] in
  let c2 := [[]; []; [1]] in
  let e1 := (2, c1, [(0, 1)]) in
  let e2 := (2, c2, [(0, 2)]) in
  let st0 := mkAStar {[start := 0]} {[start := 1]} {[start := 1]}
               [(1, start, [])] ({[start]} ∪ ∅) in
  let st1 := mkAStar (<[c2 := 1]> (<[c1 := 1]> {[start := 0]}))
               (<[c2 := 1]> (<[c1 := 1]> {[start := 1]}))
               (<[c2 := 2]> (<[c1 := 2]> {[start := 1]}))
               [e2; e1] ({[c2]} ∪ ({[c1]} ∪ ({[start]} ∪ ∅))) in
  a_star_init self start = Ok st0
  ∧ heappop entry_lt (priority_queue st0) = Ok ((1, start, []), [])
  ∧ is_victory self start = false
  ∧ get_possible_moves self start = [(0, 1); (0, 2)]
  ∧ a_star_for self start [] (with_queue st0 []) [(0, 1); (0, 2)] = Ok st1
  ∧ heappush entry_lt [] e1 = Ok [e1]
  ∧ heappush entry_lt [e1] e2 = Ok (priority_queue st1)
  ∧ heappop entry_lt (priority_queue st1) = Ok (e2, [e1]).
Proof.
  intros self start c1 c2 e1 e2 st0 st1.
  repeat split; vm_compute; reflexivity.
Qed.

(** ** The theorems at concrete inputs *)

Lemma solve_sound_witness :
  let self := init (spec_game 2) in
  let X := [[1; 2]; [2]; [1]] in
  solution_found self = false
  ∧ ∃ final, replay X [(0, 1); (0, 2)] = Ok final
             ∧ check_victory_spec 2 final = true.
Proof.
  intros self X. split; [reflexivity|].
  set (self' := found (visit (visit (visit self X) [[1]; [2; 2]; [1]])
                         [[]; [2; 2]; [1; 1]]) [(0, 1); (0, 2)]).
  apply (solve_sound 10 self self' X); vm_compute; reflexivity.
Defined.

Lemma make_move_conserves_witness :
  let self := init (spec_game 2) in
  let X := [[1; 2]; [2]; []] in
  (0, 1) ∈ get_possible_moves self X
  ∧ ∃ next_colors, make_move X (0, 1) = Ok next_colors
    ∧ units next_colors ≡ₚ units X
    ∧ length (units next_colors) = length (units X)
    ∧ ∀ c, count_color c next_colors = count_color c X.
Proof.
  intros self X.
  assert ((0, 1) ∈ get_possible_moves self X) as Hm by (vm_compute; constructor).
  split; [exact Hm|]. exact (make_move_conserves self X (0, 1) Hm).
Defined.

Lemma make_move_within_capacity_witness :
  let self := init (spec_game 2) in
  let X := [[1; 2]; [2]; []] in
  within_capacity 2 X
  ∧ (0, 1) ∈ get_possible_moves self X
  ∧ ∃ next_colors, make_move X (0, 1) = Ok next_colors
                   ∧ within_capacity 2 next_colors.
Proof.
  intros self X.
  assert (within_capacity 2 X) as Hc by (repeat constructor; simpl; lia).
  assert ((0, 1) ∈ get_possible_moves self X) as Hm by (vm_compute; constructor).
  split; [exact Hc|]. split; [exact Hm|].
  exact (make_move_within_capacity self X (0, 1) Hc Hm).
Defined.

Lemma make_move_pure_witness :
  let σ : gmap positive Store.obj :=
    {[ 1%positive := Store.Ints [1; 2]; 2%positive := Store.Ints [2];
       3%positive := Store.Refs [1%positive; 2%positive] ]} in
  let C := [[1; 2]; [2]] in
  Store.config_at σ 3%positive = Some C
  ∧ ∃ new_tube_colors σ' C',
      Store.make_move σ 3%positive (0, 1) = Ok (new_tube_colors, σ')
      ∧ σ !! new_tube_colors = None
      ∧ Store.config_at σ' new_tube_colors = Some C'
      ∧ make_move C (0, 1) = Ok C'
      ∧ poured C C' 0 1
      ∧ σ ⊆ σ'
      ∧ Store.config_at σ' 3%positive = Some C.
Proof.
  intros σ C.
  assert (Store.config_at σ 3%positive = Some C) as HC by (vm_compute; reflexivity).
  split; [exact HC|].
  apply (make_move_pure σ 3%positive C 0 1 0%nat 1%nat [1; 2] HC);
    [reflexivity|reflexivity|reflexivity|discriminate].
Defined.

Lemma already_won_witness :
  check_victory (spec_game 2) [[7; 7]; []] = true
  ∧ ∃ s1 s2,
      solve 1 (init (spec_game 2)) [[7; 7]; []] = Ok s1
      ∧ solution_found s1 = true ∧ moves s1 = []
      ∧ optimal_solve 1 (init (spec_game 2)) [[7; 7]; []] = Ok s2
      ∧ solution_found s2 = true ∧ moves s2 = [].
Proof.
  split; [reflexivity|].
  exact (already_won (spec_game 2) 7 0 eq_refl).
Defined.

Lemma not_found_is_normal_witness :
  let self := init (spec_game 2) in
  is_victory self [[1]] = false
  ∧ get_possible_moves self [[1]] = []
  ∧ ∃ s1 s2,
      dfs 1 (visit self [[1]]) [[1]] [] = Ok (false, s1)
      ∧ solve 1 self [[1]] = Ok s1
      ∧ solution_found s1 = false
      ∧ a_star_search 1 self [[1]] = Ok (false, s2)
      ∧ optimal_solve 1 self [[1]] = Ok s2
      ∧ solution_found s2 = false.
Proof.
  intros self. split; [reflexivity|]. split; [reflexivity|].
  exact (not_found_is_normal self [[1]] 0 eq_refl eq_refl eq_refl).
Defined.

(** ** Python's [<] is a strict total order *)

Section LexFacts.
Context {A : Type} `{EqDecision A} (lt : A → A → bool) (Hlt : StrictTotal lt).

Lemma list_lt_irrefl (l : list A) : list_lt lt l l = false.
Proof. induction l as [|x l IH]; simpl; [done|]. by rewrite decide_True. Qed.

Lemma list_lt_trans (l1 l2 l3 : list A) :
  list_lt lt l1 l2 = true → list_lt lt l2 l3 = true → list_lt lt l1 l3 = true.
Proof.
  revert l2 l3. induction l1 as [|x l1 IH]; intros [|y l2] [|z l3]; simpl; try done.
  destruct (decide (x = y)) as [->|Hxy].
  - destruct (decide (y = z)) as [->|Hyz]; [apply IH|done].
  - destruct (decide (y = z)) as [->|Hyz].
    + rewrite decide_False by done. done.
    + intros H1 H2. pose proof (lt_trans lt Hlt _ _ _ H1 H2) as H3.
      destruct (decide (x = z)) as [->|]; [|done].
      by rewrite (lt_irrefl lt Hlt) in H3.
Qed.

Lemma list_lt_total (l1 l2 : list A) :
  list_lt lt l1 l2 = false → list_lt lt l2 l1 = false → l1 = l2.
Proof.
  revert l2. induction l1 as [|x l1 IH]; intros [|y l2]; simpl; try done.
  destruct (decide (x = y)) as [->|Hxy].
  - rewrite decide_True by done. intros H1 H2. f_equal. by apply IH.
  - rewrite decide_False by done. intros H1 H2.
    destruct Hxy. by apply (lt_total lt Hlt).
Qed.

Lemma list_lt_strict : StrictTotal (list_lt lt).
Proof.
  split; [apply list_lt_irrefl|apply list_lt_trans|apply list_lt_total].
Qed.
End LexFacts.

Lemma Z_ltb_strict : StrictTotal Z.ltb.
Proof. split; intros; lia. Qed.

Lemma pair_lt_strict : StrictTotal pair_lt.
Proof.
  split.
  - intros [a b]. unfold pair_lt. simpl. rewrite decide_True by done. lia.
  - intros [a1 b1] [a2 b2] [a3 b3]. unfold pair_lt. simpl.
    repeat case_decide; subst; try lia.
  - intros [a1 b1] [a2 b2]. unfold pair_lt. simpl.
    repeat case_decide; subst; intros; try lia. f_equal; lia.
Qed.

Lemma colors_lt_strict : StrictTotal colors_lt.
Proof. apply list_lt_strict, list_lt_strict, Z_ltb_strict. Qed.

Lemma path_lt_strict : StrictTotal path_lt.
Proof. apply list_lt_strict, pair_lt_strict. Qed.

Lemma entry_lt_strict : StrictTotal entry_lt.
Proof.
  split.
  - intros [[fa ca] pa]. simpl. rewrite !decide_True by done.
    apply (lt_irrefl _ path_lt_strict).
  - intros [[f1 c1] p1] [[f2 c2] p2] [[f3 c3] p3]. simpl.
    destruct (decide (f1 = f2)) as [->|Hf12].
    + destruct (decide (f2 = f3)) as [->|Hf23]; [|by intros _ ?].
      destruct (decide (c1 = c2)) as [->|Hc12].
      * destruct (decide (c2 = c3)) as [->|Hc23]; [|by intros _ ?].
        apply (lt_trans _ path_lt_strict).
      * destruct (decide (c2 = c3)) as [->|Hc23].
        -- rewrite (decide_False (P := c1 = c3)) by done. by intros ? _.
        -- intros H1 H2. pose proof (lt_trans _ colors_lt_strict _ _ _ H1 H2) as H3.
           destruct (decide (c1 = c3)) as [->|]; [|done].
           by rewrite (lt_irrefl _ colors_lt_strict) in H3.
    + destruct (decide (f2 = f3)) as [->|Hf23].
      * rewrite (decide_False (P := f1 = f3)) by done. by intros ? _.
      * intros H1 H2. rewrite (decide_False (P := f1 = f3)) by lia. lia.
  - intros [[f1 c1] p1] [[f2 c2] p2]. simpl.
    destruct (decide (f1 = f2)) as [->|Hf12].
    + rewrite (decide_True (P := f2 = f2)) by done.
      destruct (decide (c1 = c2)) as [->|Hc12].
      * rewrite (decide_True (P := c2 = c2)) by done. intros H1 H2.
        by rewrite (lt_total _ path_lt_strict _ _ H1 H2).
      * rewrite (decide_False (P := c2 = c1)) by congruence. intros H1 H2.
        destruct Hc12. exact (lt_total _ colors_lt_strict _ _ H1 H2).
    + rewrite (decide_False (P := f2 = f1)) by congruence. lia.
Qed.

(** ** [heapq] keeps its invariant *)

Lemma parent_lt (j : nat) : (0 < j → (j - 1) / 2 < j)%nat.
Proof. intros Hj. apply Nat.Div0.div_lt_upper_bound. lia. Qed.

Lemma parent_children (pos j : nat) :
  (0 < j)%nat →
  ((j - 1) / 2)%nat = pos ↔ j = (2 * pos + 1)%nat ∨ j = (2 * pos + 2)%nat.
Proof.
  intros Hj. pose proof (Nat.div_mod_eq (j - 1) 2) as Hdm.
  pose proof (Nat.mod_upper_bound (j - 1) 2). split.
  - intros <-. lia.
  - intros [->| ->].
    + replace (2 * pos + 1 - 1)%nat with (pos * 2)%nat by lia.
      by rewrite Nat.div_mul.
    + replace (2 * pos + 2 - 1)%nat with (1 + pos * 2)%nat by lia.
      by rewrite Nat.div_add.
Qed.

Lemma insert_cons_perm {A} (l : list A) (i : nat) (x y : A) :
  l !! i = Some y → x :: l ≡ₚ y :: <[i := x]> l.
Proof.
  revert i. induction l as [|z l IH]; intros [|i] Hi; simplify_eq/=.
  - apply perm_swap.
  - rewrite (perm_swap z y), <- (IH i Hi). apply perm_swap.
Qed.

Lemma insert_swap_perm {A} (l : list A) (i j : nat) (a b : A) :
  i ≠ j → l !! i = Some a → l !! j = Some b →
  <[i := b]> (<[j := a]> l) ≡ₚ l.
Proof.
  intros Hij Hi Hj. apply (Permutation_cons_inv (a := a)).
  rewrite <- (insert_cons_perm (<[j := a]> l) i b a)
    by (by rewrite list_lookup_insert_ne).
  symmetry. by apply insert_cons_perm.
Qed.

Section HeapFacts.
Context {A : Type} (lt : A → A → bool) (Hlt : StrictTotal lt).

Lemma le_of_refl (x : A) : le_of lt x x.
Proof. apply (lt_irrefl lt Hlt). Qed.

Lemma lt_le_of (x y : A) : lt x y = true → le_of lt x y.
Proof.
  intros Hxy. unfold le_of. destruct (lt y x) eqn:Hyx; [|done].
  pose proof (lt_trans lt Hlt _ _ _ Hxy Hyx) as H.
  by rewrite (lt_irrefl lt Hlt) in H.
Qed.

Lemma le_of_trans (x y z : A) : le_of lt x y → le_of lt y z → le_of lt x z.
Proof.
  unfold le_of. intros Hyx Hzy. destruct (lt z x) eqn:Hzx; [|done].
  destruct (lt x y) eqn:Hxy.
  - pose proof (lt_trans lt Hlt _ _ _ Hzx Hxy). congruence.
  - pose proof (lt_total lt Hlt _ _ Hxy Hyx). congruence.
Qed.

(** The root of a heap is a least element. *)
Lemma heap_ok_root (heap : list A) (r : A) (j : nat) (y : A) :
  heap_ok lt heap → heap !! 0%nat = Some r → heap !! j = Some y → le_of lt r y.
Proof.
  intros Hh Hr. revert y. induction (lt_wf j) as [j _ IH]. intros y Hj.
  destruct (decide (j = 0%nat)) as [->|Hj0].
  { assert (y = r) as -> by congruence. apply le_of_refl. }
  assert ((j - 1) / 2 < j)%nat as Hp by (apply parent_lt; lia).
  destruct (lookup_lt_is_Some_2 heap ((j - 1) / 2)) as [p Hpl].
  { apply lookup_lt_Some in Hj. lia. }
  eapply le_of_trans; [by apply (IH _ Hp)|].
  eapply Hh; [|done..]. lia.
Qed.

Lemma heap_ok_app (h1 h2 : list A) : heap_ok lt (h1 ++ h2) → heap_ok lt h1.
Proof.
  intros Hh j x p Hj Hx Hp.
  eapply (Hh j); [done|by apply lookup_app_l_Some..].
Qed.
End HeapFacts.

Section SiftFacts.
Context {A : Type} (lt : A → A → bool) (Hlt : StrictTotal lt).

(** One step of the loop of [_siftdown]: the new item and its parent
    change places. *)
Lemma up_ok_swap (heap : list A) (pos : nat) (x parent : A) :
  (0 < pos)%nat →
  heap !! pos = Some x → heap !! ((pos - 1) / 2)%nat = Some parent →
  lt x parent = true →
  up_ok lt heap pos →
  up_ok lt (<[((pos - 1) / 2)%nat := x]> (<[pos := parent]> heap)) ((pos - 1) / 2).
Proof.
  intros Hpos Hx Hp Hxp [H1 H2].
  pose proof (parent_lt pos Hpos) as Hpp. set (pp := ((pos - 1) / 2)%nat) in *.
  assert (pos < length heap)%nat as Hlen by (by eapply lookup_lt_Some).
  split.
  - intros j xj pj Hj Hjne Hxj Hpj.
    rewrite list_lookup_insert_ne in Hxj by done.
    destruct (decide (j = pos)) as [->|Hjp].
    + rewrite list_lookup_insert_eq in Hxj by done. fold pp in Hpj.
      rewrite list_lookup_insert_eq in Hpj by (rewrite length_insert; lia).
      simplify_eq. by apply lt_le_of.
    + rewrite list_lookup_insert_ne in Hxj by done.
      destruct (decide (((j - 1) / 2)%nat = pp)) as [E|Hne1].
      * rewrite E, list_lookup_insert_eq in Hpj by (rewrite length_insert; lia).
        simplify_eq. eapply le_of_trans; [done|by apply lt_le_of|].
        eapply (H1 j); [done..|]. by rewrite E.
      * rewrite list_lookup_insert_ne in Hpj by done.
        destruct (decide (((j - 1) / 2)%nat = pos)) as [E|Hne2].
        -- rewrite E, list_lookup_insert_eq in Hpj by done. simplify_eq.
           by eapply (H2 j).
        -- rewrite list_lookup_insert_ne in Hpj by done. by eapply (H1 j).
  - intros j xj pj Hpp0 Hj Hjpar Hxj Hpj.
    pose proof (parent_lt pp Hpp0) as Hppp.
    pose proof (parent_lt j Hj) as Hjlt.
    rewrite !list_lookup_insert_ne in Hpj by lia.
    rewrite list_lookup_insert_ne in Hxj by lia.
    assert (le_of lt pj parent) as Hle by (eapply (H1 pp); [done|lia|done..]).
    destruct (decide (j = pos)) as [->|Hjp].
    + rewrite list_lookup_insert_eq in Hxj by done. by simplify_eq.
    + rewrite list_lookup_insert_ne in Hxj by done.
      eapply le_of_trans; [done|exact Hle|].
      eapply (H1 j); [done..|]. by rewrite Hjpar.
Qed.

Lemma siftdown_loop_S (fuel : nat) (heap : list A) (startpos pos : nat) (x : A) :
  siftdown_loop lt (S fuel) heap startpos pos x
  = if decide (startpos < pos)%nat then
      parent ← list_get heap ((pos - 1) / 2)%nat;
      if lt x parent then
        heap ← list_set heap pos parent;
        siftdown_loop lt fuel heap startpos ((pos - 1) / 2)%nat x
      else Ok (heap, pos)
    else Ok (heap, pos).
Proof. reflexivity. Qed.

Lemma siftdown_loop_spec (fuel : nat) (heap : list A) (pos : nat) (x : A) :
  (pos ≤ fuel)%nat → (pos < length heap)%nat →
  up_ok lt (<[pos := x]> heap) pos →
  ∃ heap' pos',
    siftdown_loop lt fuel heap 0 pos x = Ok (heap', pos')
    ∧ (pos' < length heap')%nat
    ∧ heap_ok lt (<[pos' := x]> heap')
    ∧ <[pos' := x]> heap' ≡ₚ <[pos := x]> heap.
Proof.
  revert heap pos. induction fuel as [|fuel IH]; intros heap pos Hfuel Hlen Hup.
  - assert (pos = 0%nat) as -> by lia. simpl.
    exists heap, 0%nat. repeat split; try done.
    intros j xj pj Hj. apply (proj1 Hup); lia.
  - rewrite siftdown_loop_S. case_decide as Hpos.
    + pose proof (parent_lt pos Hpos) as Hpp.
      destruct (lookup_lt_is_Some_2 heap ((pos - 1) / 2)) as [parent Hparent]; [lia|].
      unfold list_get. rewrite Hparent. cbn [mbind outcome_bind].
      destruct (lt x parent) eqn:Hxp.
      * unfold list_set. rewrite decide_True by done. cbn [mbind outcome_bind].
        destruct (IH (<[pos := parent]> heap) ((pos - 1) / 2)%nat)
          as (heap' & pos' & Hrun & Hlen' & Hok & Hperm).
        { lia. }
        { rewrite length_insert. lia. }
        { rewrite <- (list_insert_insert_eq heap pos parent x).
          apply up_ok_swap; [done| |..|done|done].
          - by rewrite list_lookup_insert_eq.
          - rewrite list_lookup_insert_ne by lia. done. }
        exists heap', pos'. repeat split; try done.
        rewrite Hperm, <- (list_insert_insert_eq heap pos parent x).
        apply insert_swap_perm; [lia| |].
        -- rewrite list_lookup_insert_ne by lia. done.
        -- by rewrite list_lookup_insert_eq.
      * exists heap, pos. repeat split; try done.
        intros j xj pj Hj Hxj Hpj.
        destruct (decide (j = pos)) as [->|Hjp]; [|by eapply (proj1 Hup)].
        rewrite list_lookup_insert_eq in Hxj by done.
        rewrite list_lookup_insert_ne in Hpj by lia. by simplify_eq.
    + assert (pos = 0%nat) as -> by lia.
      exists heap, 0%nat. repeat split; try done.
      intros j xj pj Hj. apply (proj1 Hup); lia.
Qed.

Lemma siftdown_spec (heap : list A) (pos : nat) :
  (pos < length heap)%nat → up_ok lt heap pos →
  ∃ heap', siftdown lt heap 0 pos = Ok heap' ∧ heap_ok lt heap' ∧ heap' ≡ₚ heap.
Proof.
  intros Hlen Hup.
  destruct (lookup_lt_is_Some_2 heap pos Hlen) as [x Hx].
  unfold siftdown, list_get. rewrite Hx. simpl.
  destruct (siftdown_loop_spec pos heap pos x) as (heap' & pos' & -> & Hlen' & Hok & Hperm);
    [done|done|by rewrite list_insert_id|].
  simpl. unfold list_set. rewrite decide_True by done.
  exists (<[pos' := x]> heap'). split; [done|]. split; [done|].
  by rewrite Hperm, list_insert_id.
Qed.

(** [heappush] keeps the invariant and adds the item. *)
Lemma heappush_spec (heap : list A) (item : A) :
  heap_ok lt heap →
  ∃ heap', heappush lt heap item = Ok heap' ∧ heap_ok lt heap'
           ∧ heap' ≡ₚ item :: heap.
Proof.
  intros Hok. unfold heappush.
  replace (length (heap ++ [item]) - 1)%nat with (length heap)
    by (rewrite length_app; simpl; lia).
  destruct (siftdown_spec (heap ++ [item]) (length heap)) as (heap' & -> & Hok' & Hperm).
  - rewrite length_app. simpl. lia.
  - split.
    + intros j xj pj Hj Hjne Hxj Hpj.
      assert (j < length heap)%nat as Hjlt.
      { apply lookup_lt_Some in Hxj. rewrite length_app in Hxj. simpl in Hxj. lia. }
      pose proof (parent_lt j Hj).
      rewrite lookup_app_l in Hxj, Hpj by lia. by eapply (Hok j).
    + intros j xj pj _ Hj Hjpar Hxj _.
      pose proof (parent_lt j Hj).
      apply lookup_lt_Some in Hxj. rewrite length_app in Hxj. simpl in Hxj. lia.
  - exists heap'. split; [done|]. split; [done|].
    rewrite Hperm. by rewrite Permutation_app_comm.
Qed.
End SiftFacts.

Section SiftUpFacts.
Context {A : Type} (lt : A → A → bool) (Hlt : StrictTotal lt).

(** One step of the loop of [_siftup]: the smaller child [c] of [pos] moves
    up, and the hole moves to [c]. *)
Lemma hole_ok_step (heap : list A) (pos c : nat) (vc : A) :
  (0 < c)%nat → ((c - 1) / 2)%nat = pos → (pos < length heap)%nat →
  heap !! c = Some vc →
  (∀ s vs, (0 < s)%nat → ((s - 1) / 2)%nat = pos → heap !! s = Some vs →
           le_of lt vc vs) →
  hole_ok lt heap pos →
  hole_ok lt (<[pos := vc]> heap) c.
Proof.
  intros Hc Hcpar Hlen Hvc Hmin [H1 H2].
  pose proof (parent_lt c Hc) as Hclt.
  split.
  - intros j xj pj Hj Hjpar Hxj Hpj.
    pose proof (parent_lt j Hj) as Hjlt.
    destruct (decide (j = pos)) as [->|Hjp].
    + rewrite list_lookup_insert_eq in Hxj by done.
      rewrite list_lookup_insert_ne in Hpj by lia. simplify_eq.
      eapply (H2 c); [lia|done|done|done|done].
    + rewrite list_lookup_insert_ne in Hxj by done.
      destruct (decide (((j - 1) / 2)%nat = pos)) as [E|Hne].
      * rewrite E, list_lookup_insert_eq in Hpj by done. simplify_eq.
        by eapply Hmin.
      * rewrite list_lookup_insert_ne in Hpj by done. by eapply (H1 j).
  - intros j xj pj _ Hj Hjpar Hxj Hpj.
    pose proof (parent_lt j Hj) as Hjlt.
    rewrite Hcpar, list_lookup_insert_eq in Hpj by done.
    rewrite list_lookup_insert_ne in Hxj by lia. injection Hpj as <-.
    eapply (H1 j); [done|lia|done|]. by rewrite Hjpar.
Qed.

Lemma siftup_loop_S (fuel : nat) (heap : list A) (endpos pos : nat) :
  siftup_loop lt (S fuel) heap endpos pos
  = if decide (2 * pos + 1 < endpos)%nat then
      childpos ← smaller_child lt heap endpos pos;
      child ← list_get heap childpos;
      heap ← list_set heap pos child;
      siftup_loop lt fuel heap endpos childpos
    else Ok (heap, pos).
Proof. reflexivity. Qed.

Lemma smaller_child_spec (heap : list A) (pos : nat) :
  (2 * pos + 1 < length heap)%nat →
  ∃ c vc, smaller_child lt heap (length heap) pos = Ok c
    ∧ (0 < c)%nat ∧ ((c - 1) / 2)%nat = pos ∧ heap !! c = Some vc
    ∧ ∀ s vs, (0 < s)%nat → ((s - 1) / 2)%nat = pos → heap !! s = Some vs →
              le_of lt vc vs.
Proof.
  intros Hchild. unfold smaller_child.
  destruct (lookup_lt_is_Some_2 heap (2 * pos + 1)) as [l Hl]; [done|].
  case_decide as Hright.
  - destruct (lookup_lt_is_Some_2 heap (2 * pos + 1 + 1)) as [r Hr]; [done|].
    unfold list_get. rewrite Hl, Hr. cbn [mbind outcome_bind].
    destruct (lt l r) eqn:Hlr; cbn [negb].
    + exists (2 * pos + 1)%nat, l. split; [done|]. split; [lia|].
      split; [apply parent_children; lia|]. split; [done|].
      intros s vs Hs Hspar Hvs.
      apply (proj1 (parent_children _ _ Hs)) in Hspar as [->| ->].
      * simplify_eq. by apply le_of_refl.
      * replace (2 * pos + 2)%nat with (2 * pos + 1 + 1)%nat in Hvs by lia.
        simplify_eq. by apply lt_le_of.
    + exists (2 * pos + 1 + 1)%nat, r. split; [done|]. split; [lia|].
      split; [apply parent_children; lia|]. split; [done|].
      intros s vs Hs Hspar Hvs.
      apply (proj1 (parent_children _ _ Hs)) in Hspar as [->| ->].
      * by simplify_eq.
      * replace (2 * pos + 2)%nat with (2 * pos + 1 + 1)%nat in Hvs by lia.
        simplify_eq. by apply le_of_refl.
  - exists (2 * pos + 1)%nat, l. split; [done|]. split; [lia|].
    split; [apply parent_children; lia|]. split; [done|].
    intros s vs Hs Hspar Hvs.
      apply (proj1 (parent_children _ _ Hs)) in Hspar as [->| ->].
    + simplify_eq. by apply le_of_refl.
    + apply lookup_lt_Some in Hvs. lia.
Qed.

Lemma siftup_loop_spec (fuel : nat) (heap : list A) (pos : nat) (x : A) :
  (length heap - pos ≤ fuel)%nat → (pos < length heap)%nat →
  hole_ok lt heap pos →
  ∃ heap' pos',
    siftup_loop lt fuel heap (length heap) pos = Ok (heap', pos')
    ∧ length heap' = length heap
    ∧ (pos' < length heap)%nat
    ∧ (length heap ≤ 2 * pos' + 1)%nat
    ∧ hole_ok lt heap' pos'
    ∧ <[pos' := x]> heap' ≡ₚ <[pos := x]> heap.
Proof.
  revert heap pos. induction fuel as [|fuel IH]; intros heap pos Hfuel Hlen Hhole.
  { lia. }
  rewrite siftup_loop_S. case_decide as Hchild.
  - destruct (smaller_child_spec heap pos Hchild)
      as (c & vc & -> & Hc & Hcpar & Hvc & Hmin).
    cbn [mbind outcome_bind]. unfold list_get. rewrite Hvc.
    cbn [mbind outcome_bind]. unfold list_set. rewrite decide_True by done.
    cbn [mbind outcome_bind].
    pose proof (parent_lt c Hc) as Hclt.
    assert (c < length heap)%nat as Hclen by (by eapply lookup_lt_Some).
    destruct (IH (<[pos := vc]> heap) c)
      as (heap' & pos' & Hrun & Hlen' & Hpos' & Hleaf & Hhole' & Hperm).
    { rewrite length_insert. lia. }
    { by rewrite length_insert. }
    { by apply hole_ok_step. }
    rewrite length_insert in Hrun, Hlen', Hpos', Hleaf.
    exists heap', pos'. split_and!; try done.
    rewrite Hperm, <- (list_insert_insert_eq heap pos vc x).
    apply insert_swap_perm; [lia| |].
    + rewrite list_lookup_insert_ne by lia. done.
    + by rewrite list_lookup_insert_eq.
  - exists heap, pos. split_and!; try done. lia.
Qed.

Lemma siftup_spec (heap : list A) :
  (0 < length heap)%nat → hole_ok lt heap 0 →
  ∃ heap', siftup lt heap 0 = Ok heap' ∧ heap_ok lt heap' ∧ heap' ≡ₚ heap.
Proof.
  intros Hlen Hhole.
  destruct (lookup_lt_is_Some_2 heap 0 Hlen) as [x Hx].
  unfold siftup, list_get. rewrite Hx. cbn [mbind outcome_bind].
  destruct (siftup_loop_spec (length heap) heap 0 x)
    as (heap1 & pos1 & -> & Hlen1 & Hpos1 & Hleaf & [H1 H2] & Hperm);
    [lia|done|done|].
  cbn [mbind outcome_bind]. unfold list_set.
  rewrite decide_True by lia. cbn [mbind outcome_bind].
  destruct (siftdown_spec lt Hlt (<[pos1 := x]> heap1) pos1)
    as (heap' & -> & Hok & Hperm').
  - rewrite length_insert. lia.
  - split.
    + intros j xj pj Hj Hjne Hxj Hpj.
      assert (j < length heap)%nat as Hjlen.
      { apply lookup_lt_Some in Hxj. rewrite length_insert in Hxj. lia. }
      assert (((j - 1) / 2)%nat ≠ pos1) as Hne.
      { intros E. apply (proj1 (parent_children _ _ Hj)) in E as [->| ->]; lia. }
      rewrite list_lookup_insert_ne in Hxj, Hpj by done. by eapply (H1 j).
    + intros j xj pj _ Hj Hjpar Hxj _.
      apply lookup_lt_Some in Hxj. rewrite length_insert in Hxj.
      apply (proj1 (parent_children _ _ Hj)) in Hjpar as [->| ->]; lia.
  - exists heap'. split; [done|]. split; [done|].
    by rewrite Hperm', Hperm, list_insert_id.
Qed.

(** [heappop] returns a least item and keeps the invariant on the rest. *)
Lemma heappop_spec (heap : list A) :
  heap_ok lt heap → heap ≠ [] →
  ∃ x heap', heappop lt heap = Ok (x, heap')
    ∧ heap_ok lt heap'
    ∧ heap ≡ₚ x :: heap'
    ∧ ∀ y, y ∈ heap' → le_of lt x y.
Proof.
  intros Hok Hne.
  destruct (last heap) as [lastelt|] eqn:Hlast; [|by apply last_None in Hlast].
  apply last_Some in Hlast as [rest ->]. clear Hne.
  unfold heappop. rewrite list_pop_snoc. cbn [mbind outcome_bind].
  destruct rest as [|r rest].
  { exists lastelt, []. split; [done|]. split; [by intros j ? ? _ ?|].
    split; [done|]. by intros y ?%elem_of_nil. }
  cbn [list_get lookup list_lookup mbind outcome_bind].
  unfold list_set. rewrite decide_True by (simpl; lia).
  cbn [mbind outcome_bind insert list_insert].
  destruct (siftup_spec (lastelt :: rest)) as (heap' & -> & Hok' & Hperm).
  { simpl. lia. }
  { split; [|intros; lia].
    intros j xj pj Hj Hjpar Hxj Hpj.
    destruct j as [|j]; [lia|].
    destruct ((S j - 1) / 2)%nat as [|k] eqn:Hk; [done|].
    eapply (Hok (S j)); [done| |].
    - by apply lookup_app_l_Some.
    - rewrite Hk. by apply lookup_app_l_Some. }
  exists r, heap'. split; [done|]. split; [done|].
  assert ((r :: rest) ++ [lastelt] ≡ₚ r :: heap') as Hp.
  { rewrite Hperm. simpl. constructor. by rewrite Permutation_app_comm. }
  split; [done|].
  intros y Hy.
  assert (y ∈ (r :: rest) ++ [lastelt]) as Hin by (rewrite Hp; by right).
  apply list_elem_of_lookup in Hin as [j Hj].
  exact (heap_ok_root lt Hlt _ r j y Hok eq_refl Hj).
Qed.
End SiftUpFacts.

(** ** The frontier of [a_star_search] *)

Lemma dict_get_insert (d : gmap (list (list Z)) Z) (k : list (list Z)) (v : Z) :
  dict_get (<[k := v]> d) k = Ok v.
Proof. unfold dict_get. by rewrite lookup_insert_eq. Qed.

Lemma a_star_move_queue_ok (self : GameSolution) (current_colors : list (list Z))
    (path : list (Z * Z)) (st st' : AStar) (move : Z * Z) :
  queue_ok st →
  a_star_move self current_colors path st move = Ok st' →
  queue_ok st'.
Proof.
  intros (Hheap & Hnd & Hvis). unfold a_star_move.
  destruct (make_move current_colors move) as [next| |]; [|done..].
  cbn [mbind outcome_bind]. case_decide as Hnew; [|by intros [= <-]].
  destruct (dict_get (g st) current_colors) as [g_cur| |]; [|done..].
  cbn [mbind outcome_bind].
  repeat (rewrite dict_get_insert; cbn [mbind outcome_bind]).
  destruct (heappush_spec entry_lt entry_lt_strict (priority_queue st)
              (g_cur + 1 + heuristic self next, next, path ++ [move]) Hheap)
    as (queue & -> & Hheap' & Hperm).
  cbn [mbind outcome_bind]. intros [= <-]. split; [done|]. simpl. split.
  - rewrite Hperm. rewrite fmap_cons. simpl. constructor; [|done].
    intros (e & -> & He)%list_elem_of_fmap. by apply Hnew, Hvis.
  - intros e He. rewrite Hperm in He. apply elem_of_cons in He as [->|He].
    + simpl. apply elem_of_union_l, elem_of_singleton. done.
    + apply elem_of_union_r. by apply Hvis.
Qed.

Lemma a_star_for_queue_ok (self : GameSolution) (current_colors : list (list Z))
    (path : list (Z * Z)) (todo : list (Z * Z)) (st st' : AStar) :
  queue_ok st →
  a_star_for self current_colors path st todo = Ok st' →
  queue_ok st'.
Proof.
  revert st. induction todo as [|move todo IH]; intros st Hok; simpl.
  - by intros [= <-].
  - destruct (a_star_move self current_colors path st move) as [st1| |] eqn:Hm;
      [|done..].
    cbn [mbind outcome_bind]. apply IH. by eapply a_star_move_queue_ok.
Qed.

Lemma heappop_nonempty {A} (lt : A → A → bool) (heap : list A) (r : A * list A) :
  heappop lt heap = Ok r → heap ≠ [].
Proof. by intros H ->. Qed.

Lemma frontier_queue_ok (self : GameSolution) (start_colors : list (list Z))
    (st : AStar) :
  frontier self start_colors st → queue_ok st.
Proof.
  induction 1 as [st Hinit|st fv cur path queue st' _ IH Hpop _ Hfor].
  - destruct (a_star_init_Ok self start_colors) as (st0 & Hst0 & Hq).
    unfold a_star_init, dict_get in Hinit.
    rewrite !lookup_singleton_eq in Hinit. cbn [mbind outcome_bind] in Hinit.
    rewrite lookup_singleton_eq in Hinit. injection Hinit as <-.
    split; [|split]; simpl.
    + intros j x p Hj Hx. destruct j; [lia|done].
    + apply NoDup_singleton.
    + intros e ->%list_elem_of_singleton. simpl. set_solver.
  - eapply a_star_for_queue_ok; [|exact Hfor].
    destruct IH as (Hheap & Hnd & Hvis).
    destruct (heappop_spec entry_lt entry_lt_strict _ Hheap
                (heappop_nonempty _ _ _ Hpop))
      as (x & rest & Hpop' & Hheap' & Hperm & _).
    rewrite Hpop in Hpop'. injection Hpop' as <- <-.
    split; [done|]. simpl. split.
    + rewrite Hperm, fmap_cons in Hnd. by apply NoDup_cons in Hnd as [_ ?].
    + intros e He. apply Hvis. rewrite Hperm. by right.
Qed.

(** C6 (as amended). In [a_star_search], the entry that [heappop] takes
    from the frontier has the least [f]; and among the entries of the
    frontier with that same [f] it is the one whose configuration is the
    smallest in Python's ordering of lists, whatever the order in which the
    entries were pushed. *)
Theorem frontier_tie_break (self : GameSolution) (start_colors : list (list Z))
    (st : AStar) (first e : Z * list (list Z) * list (Z * Z))
    (rest : list (Z * list (list Z) * list (Z * Z))) :
  frontier self start_colors st →
  heappop entry_lt (priority_queue st) = Ok (first, rest) →
  e ∈ rest →
  first.1.1 ≤ e.1.1
  ∧ (e.1.1 = first.1.1 → colors_lt first.1.2 e.1.2 = true).
Proof.
  intros (Hheap & Hnd & _)%frontier_queue_ok Hpop He.
  destruct (heappop_spec entry_lt entry_lt_strict _ Hheap
              (heappop_nonempty _ _ _ Hpop))
    as (x & rest' & Hpop' & _ & Hperm & Hmin).
  rewrite Hpop in Hpop'. injection Hpop' as <- <-.
  specialize (Hmin e He). unfold le_of in Hmin.
  rewrite Hperm, fmap_cons in Hnd. apply NoDup_cons in Hnd as [Hfresh _].
  assert (e.1.2 ≠ first.1.2) as Hne.
  { intros Heq. apply Hfresh. rewrite <- Heq.
    by apply (list_elem_of_fmap_2 (λ e, e.1.2)). }
  destruct first as [[ff cf] pf], e as [[fe ce] pe]. simpl in *.
  destruct (decide (fe = ff)) as [->|Hf].
  - split; [lia|]. intros _. rewrite decide_False in Hmin by done.
    destruct (colors_lt cf ce) eqn:Hlt; [done|].
    destruct Hne. exact (lt_total _ colors_lt_strict _ _ Hmin Hlt).
  - split; [lia|]. done.
Qed.

Lemma frontier_tie_break_witness :
  let self := init (spec_game 2) in
  let start := [[1]; []; []] in
  let c1 := [[]; [1]; []] in
  let c2 := [[]; []; [1]] in
  let e1 := (2, c1, [(0, 1)]) in
  let e2 := (2, c2, [(0, 2)]) in
  let st0 := mkAStar {[start := 0]} {[start := 1]} {[start := 1]}
               [(1, start, [])] ({[start]} ∪ ∅) in
  let st1 := mkAStar (<[c2 := 1]> (<[c1 := 1]> {[start := 0]}))
               (<[c2 := 1]> (<[c1 := 1]> {[start := 1]}))
               (<[c2 := 2]> (<[c1 := 2]> {[start := 1]}))
               [e2; e1] ({[c2]} ∪ ({[c1]} ∪ ({[start]} ∪ ∅))) in
  frontier self start st1
  ∧ heappop entry_lt (priority_queue st1) = Ok (e2, [e1])
  ∧ e2.1.1 ≤ e1.1.1
  ∧ (e1.1.1 = e2.1.1 → colors_lt c2 c1 = true).
Proof.
  intros self start c1 c2 e1 e2 st0 st1.
  assert (frontier self start st1) as Hfr.
  { apply (frontier_next self start st0 1 start [] [] st1).
    - apply frontier_start. vm_compute. reflexivity.
    - vm_compute. reflexivity.
    - vm_compute. reflexivity.
    - vm_compute. reflexivity. }
  assert (heappop entry_lt (priority_queue st1) = Ok (e2, [e1])) as Hpop
    by (vm_compute; reflexivity).
  split; [exact Hfr|]. split; [exact Hpop|].
  apply (frontier_tie_break self start st1 e2 e1 [e1] Hfr Hpop).
  constructor.
Defined.

(** * Further properties of the code *)

(** ** [make_move]: errors and inverse *)

Lemma py_index_cases {A} (l : list A) (i : Z) :
  py_index l i = Raise IndexError
  ∨ ∃ k, py_index l i = Ok k ∧ (k < length l)%nat.
Proof.
  unfold py_index. repeat case_decide; [right|right|by left]; eexists; split; try done; lia.
Qed.

Lemma make_move_inv (tube_colors after : list (list Z)) (src dst : Z) :
  make_move tube_colors (src, dst) = Ok after →
  ∃ s d init c td,
    py_index tube_colors src = Ok s ∧ py_index tube_colors dst = Ok d
    ∧ tube_colors !! s = Some (init ++ [c])
    ∧ (<[s := init]> tube_colors) !! d = Some td
    ∧ after = <[d := td ++ [c]]> (<[s := init]> tube_colors).
Proof.
  unfold make_move.
  destruct (py_index_cases tube_colors src) as [->|(s & Hs & Hslt)]; [done|].
  rewrite Hs. cbn [mbind outcome_bind].
  destruct (lookup_lt_is_Some_2 _ _ Hslt) as [ts Hts].
  rewrite (py_get_index _ _ _ _ Hs Hts). cbn [mbind outcome_bind].
  destruct (last ts) as [c|] eqn:Hlast.
  2:{ unfold list_pop. by rewrite Hlast. }
  apply last_Some in Hlast as [init ->]. rewrite list_pop_snoc.
  cbn [mbind outcome_bind].
  destruct (py_index_cases (<[s := init]> tube_colors) dst) as [->|(d & Hd & Hdlt)];
    [done|].
  rewrite Hd. cbn [mbind outcome_bind].
  destruct (lookup_lt_is_Some_2 _ _ Hdlt) as [td Htd].
  rewrite (py_get_index _ _ _ _ Hd Htd). cbn [mbind outcome_bind].
  intros [= <-]. exists s, d, init, c, td. split_and!; try done.
  rewrite <- Hd. apply py_index_length. by rewrite length_insert.
Qed.

(** X1. [make_move] succeeds exactly when [src] and [dst] index tubes of
    the configuration and the source tube is not empty; in every other case
    it raises [IndexError], from the indexing or from [pop]. *)
Theorem make_move_raises (tube_colors : list (list Z)) (src dst : Z) :
  (pourable tube_colors src dst →
     ∃ after, make_move tube_colors (src, dst) = Ok after)
  ∧ (¬ pourable tube_colors src dst →
     make_move tube_colors (src, dst) = Raise IndexError).
Proof.
  split.
  - intros (s & d & ts & Hs & Hd & Hts & Hne).
    destruct (last ts) as [c|] eqn:Hlast; [|by apply last_None in Hlast].
    apply last_Some in Hlast as [init ->].
    destruct (make_move_Ok _ _ _ _ _ _ _ Hs Hd Hts) as (td & _ & ->). eauto.
  - intros Hnot. unfold make_move.
    destruct (py_index_cases tube_colors src) as [->|(s & Hs & Hslt)]; [done|].
    rewrite Hs. cbn [mbind outcome_bind].
    destruct (lookup_lt_is_Some_2 _ _ Hslt) as [ts Hts].
    rewrite (py_get_index _ _ _ _ Hs Hts). cbn [mbind outcome_bind].
    destruct (last ts) as [c|] eqn:Hlast.
    2:{ unfold list_pop. by rewrite Hlast. }
    apply last_Some in Hlast as [init ->]. rewrite list_pop_snoc.
    cbn [mbind outcome_bind].
    destruct (py_index_cases (<[s := init]> tube_colors) dst) as [->|(d & Hd & Hdlt)];
      [done|].
    destruct Hnot. exists s, d, (init ++ [c]). split_and!; try done.
    + rewrite <- Hd. apply py_index_length. by rewrite length_insert.
    + by destruct init.
Qed.

Lemma make_move_raises_witness :
  pourable [[1; 2]; []] 0 (-1)
  ∧ (∃ after, make_move [[1; 2]; []] (0, -1) = Ok after)
  ∧ ¬ pourable [[1; 2]; []] 1 0
  ∧ make_move [[1; 2]; []] (1, 0) = Raise IndexError.
Proof.
  assert (pourable [[1; 2]; []] 0 (-1)) as H1.
  { exists 0%nat, 1%nat, [1; 2]. split_and!; done. }
  assert (¬ pourable [[1; 2]; []] 1 0) as H2.
  { intros (s & d & ts & Hs & _ & Hts & Hne).
    injection Hs as <-. injection Hts as <-. done. }
  split; [exact H1|].
  split; [exact (proj1 (make_move_raises [[1; 2]; []] 0 (-1)) H1)|].
  split; [exact H2|].
  exact (proj2 (make_move_raises [[1; 2]; []] 1 0) H2).
Defined.

(** X2. Pouring back undoes a pour: when [make_move] turns [C] into [C']
    by the move [(src, dst)], the move [(dst, src)] turns [C'] into [C]
    again.  (This holds for every move that [make_move] accepts, legal or
    not; it is why the searches need their visited sets.) *)
Theorem make_move_back (tube_colors after : list (list Z)) (src dst : Z) :
  make_move tube_colors (src, dst) = Ok after →
  make_move after (dst, src) = Ok tube_colors.
Proof.
  intros (s & d & init & c & td & Hs & Hd & Hts & Htd & ->)%make_move_inv.
  set (mid := <[s := init]> tube_colors) in *.
  assert (d < length mid)%nat as Hdlt by (by eapply lookup_lt_Some).
  assert (s < length tube_colors)%nat as Hslt by (by eapply lookup_lt_Some).
  destruct (make_move_Ok (<[d := td ++ [c]]> mid) dst src d s td c)
    as (td2 & Htd2 & ->).
  - rewrite <- Hd. apply py_index_length. unfold mid. by rewrite !length_insert.
  - rewrite <- Hs. apply py_index_length. unfold mid. by rewrite !length_insert.
  - by rewrite list_lookup_insert_eq.
  - rewrite list_insert_insert_eq, (list_insert_id mid d td Htd) in Htd2 |- *.
    unfold mid in Htd2. rewrite list_lookup_insert_eq in Htd2 by done.
    injection Htd2 as <-. unfold mid.
    by rewrite list_insert_insert_eq, list_insert_id.
Qed.

Lemma make_move_back_witness :
  make_move [[1; 2]; [2]] (0, 1) = Ok [[1]; [2; 2]]
  ∧ make_move [[1]; [2; 2]] (1, 0) = Ok [[1; 2]; [2]].
Proof.
  split; [reflexivity|].
  exact (make_move_back [[1; 2]; [2]] [[1]; [2; 2]] 0 1 eq_refl).
Defined.

(** ** [heuristic]: bounds, and its value on sorted tubes *)

Lemma heuristic_counts (self : GameSolution) (tube_colors : list (list Z)) :
  heuristic self tube_colors
  = Z.of_nat (length (filter misplaced tube_colors))
    + Z.of_nat (length (filter (incomplete (NColorInTube (game self))) tube_colors)).
Proof. unfold heuristic. by rewrite heuristic_loop. Qed.

Lemma distinct_monochrome (tube : list Z) :
  tube ≠ [] → monochrome tube → distinct tube = 1.
Proof.
  destruct tube as [|c tube]; [done|]. intros _ Hmono. unfold distinct.
  assert (list_to_set (c :: tube) = ({[c]} : gset Z)) as ->.
  { apply set_eq. intros x. rewrite elem_of_list_to_set, elem_of_singleton. split.
    - intros Hx. apply Hmono; [done|left].
    - intros ->. left. }
  by rewrite size_singleton.
Qed.

(** X3. Each tube adds at most 2 to the heuristic: the value lies between
    0 and twice the number of tubes. *)
Theorem heuristic_bounds (self : GameSolution) (tube_colors : list (list Z)) :
  0 ≤ heuristic self tube_colors ≤ 2 * Z.of_nat (length tube_colors).
Proof.
  rewrite heuristic_counts.
  pose proof (length_filter misplaced tube_colors).
  pose proof (length_filter (incomplete (NColorInTube (game self))) tube_colors).
  lia.
Qed.

(** X4. With a capacity of at least 2, a configuration whose tubes each
    hold a single color scores the number of its non-empty tubes: such a
    tube is never "misplaced" and always "incomplete", full or not.  So the
    heuristic is not 0 on a sorted configuration unless it is empty. *)
Theorem heuristic_monochrome (self : GameSolution) (tube_colors : list (list Z)) :
  2 ≤ NColorInTube (game self) →
  Forall monochrome tube_colors →
  heuristic self tube_colors
  = Z.of_nat (length (filter (λ tube, tube ≠ []) tube_colors)).
Proof.
  intros Hcap Hmono. rewrite heuristic_counts.
  induction Hmono as [|tube l Ht _ IH]; [done|].
  rewrite !filter_cons.
  destruct (decide (tube ≠ [])) as [Hne|He].
  - pose proof (distinct_monochrome tube Hne Ht) as Hd.
    rewrite decide_False by (intros [_ ?]; lia).
    rewrite decide_True by (split; [done|lia]).
    simpl length. lia.
  - rewrite decide_False by (by intros [? _]).
    rewrite decide_False by (by intros [? _]). done.
Qed.

Lemma heuristic_monochrome_witness :
  let self := init (spec_game 2) in
  2 ≤ NColorInTube (game self)
  ∧ Forall monochrome [[1; 1]; []; [2; 2]]
  ∧ heuristic self [[1; 1]; []; [2; 2]] = 2.
Proof.
  intros self.
  assert (2 ≤ NColorInTube (game self)) as Hcap by (simpl; lia).
  assert (Forall monochrome [[1; 1]; []; [2; 2]]) as Hm.
  { repeat constructor; intros x y Hx Hy;
      repeat (apply elem_of_cons in Hx as [->|Hx]);
      repeat (apply elem_of_cons in Hy as [->|Hy]);
      try done; by apply elem_of_nil in Hx || by apply elem_of_nil in Hy. }
  split; [exact Hcap|]. split; [exact Hm|].
  exact (heuristic_monochrome self [[1; 1]; []; [2; 2]] Hcap Hm).
Defined.

(** ** [get_possible_moves]: configurations without moves *)

(** X5. There is no move when the configuration has fewer than two tubes,
    and none when all its tubes are empty. *)
Theorem get_possible_moves_none (self : GameSolution) (tube_colors : list (list Z)) :
  (length tube_colors ≤ 1)%nat ∨ Forall (λ tube, tube = []) tube_colors →
  get_possible_moves self tube_colors = [].
Proof.
  intros Hcase.
  destruct (get_possible_moves self tube_colors) as [|m ms] eqn:Hm; [done|].
  assert (m ∈ get_possible_moves self tube_colors) as Hin by (rewrite Hm; left).
  apply elem_of_get_possible_moves
    in Hin as (i & j & _ & Hij & ti & tj & Hti & Htj & Hne & _).
  destruct Hcase as [Hlen|Hempty].
  - apply lookup_lt_Some in Hti, Htj. lia.
  - by pose proof (Forall_lookup_1 _ _ _ _ Hempty Hti).
Qed.

Lemma get_possible_moves_none_witness :
  ((length [[1; 2]] ≤ 1)%nat ∨ Forall (λ tube : list Z, tube = []) [[1; 2]])
  ∧ get_possible_moves (init (spec_game 2)) [[1; 2]] = [].
Proof.
  assert ((length [[1; 2]] ≤ 1)%nat ∨ Forall (λ tube : list Z, tube = []) [[1; 2]])
    as H by (left; simpl; lia).
  split; [exact H|].
  exact (get_possible_moves_none (init (spec_game 2)) [[1; 2]] H).
Defined.

(** ** [solve]: the recorded path, and what "not found" means *)

Lemma dfs_S (fuel : nat) (self : GameSolution) (current_colors : list (list Z))
    (path : list (Z * Z)) :
  dfs (S fuel) self current_colors path
  = if is_victory self current_colors then Ok (true, found self path)
    else dfs_for (dfs fuel) current_colors path self
           (get_possible_moves self current_colors).
Proof. reflexivity. Qed.

Lemma get_possible_moves_game (self : GameSolution) (tube_colors : list (list Z)) :
  get_possible_moves self tube_colors = moves_of (game self) tube_colors.
Proof. reflexivity. Qed.

Lemma finished_mono (g : Game) (V V' : gset (list (list Z))) (x : list (list Z)) :
  V ⊆ V' → finished g V x → finished g V' x.
Proof. intros Hsub [Hv Hs]. split; [done|]. intros m y Hm Hy. by eapply Hsub, Hs. Qed.

Lemma reach_snoc (g : Game) (C mid next : list (list Z)) (path : list (Z * Z))
    (m : Z * Z) :
  reach g C path mid → m ∈ moves_of g mid → make_move mid m = Ok next →
  reach g C (path ++ [m]) next.
Proof.
  intros Hr Hm Hmv. induction Hr as [C|C m0 C' path final Hm0 Hmv0 _ IH]; simpl.
  - econstructor; [done..|constructor].
  - econstructor; [done..|]. by apply IH.
Qed.

Lemma reach_replay (g : Game) (C final : list (list Z)) (path : list (Z * Z)) :
  reach g C path final → replay C path = Ok final.
Proof.
  induction 1 as [C|C m C' path final _ Hmv _ IH]; simpl; [done|].
  by rewrite Hmv.
Qed.

Lemma dfs_for_inv (fuel : nat) (g : Game) (current_colors : list (list Z))
    (path : list (Z * Z)) :
  (∀ self cur path r self',
     dfs fuel self cur path = Ok (r, self') → dfs_result self cur path r self') →
  ∀ todo s r s',
    game s = g →
    (∀ m, m ∈ todo → m ∈ moves_of g current_colors) →
    dfs_for (dfs fuel) current_colors path s todo = Ok (r, s') →
    game s' = g
    ∧ visited_states s ⊆ visited_states s'
    ∧ (∀ x, x ∈ visited_states s' → x ∉ visited_states s →
         ∃ p, reach g current_colors p x)
    ∧ if r then
        solution_found s' = true
        ∧ ∃ suffix final, moves s' = path ++ suffix
            ∧ reach g current_colors suffix final
            ∧ check_victory g final = true
      else
        solution_found s' = solution_found s
        ∧ moves s' = moves s
        ∧ (∀ m y, m ∈ todo → make_move current_colors m = Ok y →
             y ∈ visited_states s')
        ∧ ∀ x, x ∈ visited_states s' → x ∉ visited_states s →
            finished g (visited_states s') x.
Proof.
  intros IH todo. induction todo as [|m todo IHtodo]; intros s r s' Hg Htodo.
  { simpl. intros [= <- <-]. split_and!; try done.
    intros m y Hm. by apply elem_of_nil in Hm. }
  assert (m ∈ moves_of g current_colors) as Hm by (apply Htodo; left).
  assert (∀ m', m' ∈ todo → m' ∈ moves_of g current_colors) as Htodo'
    by (intros m' ?; apply Htodo; by right).
  cbn [dfs_for].
  destruct (make_move current_colors m) as [next| |] eqn:Hmv; [|done..].
  cbn [mbind outcome_bind]. case_decide as Hnew.
  - (* a new configuration: visit it, recurse into it *)
    destruct (dfs fuel (visit s next) next (path ++ [m])) as [[r0 s2]| |] eqn:Hrec;
      [|done..].
    cbn [mbind outcome_bind].
    apply IH in Hrec as (Hg2 & Hsub2 & Hreach2 & Hpost2).
    cbn [game visit visited_states] in Hg2, Hsub2, Hreach2, Hpost2.
    rewrite Hg in Hg2, Hreach2, Hpost2.
    assert (visited_states s ⊆ visited_states s2) as Hsub
      by (etrans; [|exact Hsub2]; apply union_subseteq_r).
    assert (next ∈ visited_states s2) as Hnext
      by (apply Hsub2, elem_of_union_l, elem_of_singleton; done).
    assert (reach g current_colors [m] next) as Hstep
      by (econstructor; [done..|constructor]).
    assert (∀ x, x ∈ visited_states s2 → x ∉ visited_states s →
              ∃ p, reach g current_colors p x) as Hreach.
    { intros x Hx Hnx. destruct (decide (x = next)) as [->|Hne]; [eauto|].
      destruct (Hreach2 x Hx) as [p Hp].
      { rewrite elem_of_union, elem_of_singleton. tauto. }
      exists (m :: p). by econstructor. }
    destruct r0.
    + intros [= <- <-]. destruct Hpost2 as (Hf & suffix & final & Hmoves & Hr & Hv).
      split_and!; try done. exists (m :: suffix), final.
      split; [by rewrite Hmoves, <- app_assoc|]. split; [|done].
      by econstructor.
    + destruct Hpost2 as (Hf2 & Hm2 & Hfin_next & Hfin2).
      cbn [solution_found moves visit] in Hf2, Hm2.
      intros Hrest.
      apply IHtodo in Hrest as (Hg' & Hsub' & Hreach' & Hpost'); [|done..].
      assert (∀ x, x ∈ visited_states s' → x ∉ visited_states s →
                ∃ p, reach g current_colors p x) as Hreach_all.
      { intros x Hx Hnx.
        destruct (decide (x ∈ visited_states s2)); [by apply Hreach|].
        by apply Hreach'. }
      split; [done|]. split; [by etrans|]. split; [done|].
      destruct r.
      * done.
      * destruct Hpost' as (Hf' & Hm' & Hsucc' & Hfin').
        split; [congruence|]. split; [congruence|]. split.
        -- intros m' y [->|Hin]%elem_of_cons Hy.
           ++ rewrite Hmv in Hy. injection Hy as <-. by apply Hsub'.
           ++ by eapply Hsucc'.
        -- intros x Hx Hnx.
           destruct (decide (x ∈ visited_states s2)) as [Hx2|Hx2];
             [|by apply Hfin'].
           apply (finished_mono g (visited_states s2)); [done|].
           destruct (decide (x = next)) as [->|Hne]; [done|].
           apply Hfin2; [done|].
           rewrite elem_of_union, elem_of_singleton. tauto.
  - (* already visited: skip it *)
    intros Hrest.
    apply IHtodo in Hrest as (Hg' & Hsub' & Hreach' & Hpost'); [|done..].
    split_and!; try done. destruct r; [done|].
    destruct Hpost' as (Hf' & Hm' & Hsucc' & Hfin').
    split_and!; try done.
    intros m' y [->|Hin]%elem_of_cons Hy.
    + rewrite Hmv in Hy. injection Hy as <-.
      by apply Hsub'.
    + by eapply Hsucc'.
Qed.

Lemma dfs_inv (fuel : nat) (self : GameSolution) (current_colors : list (list Z))
    (path : list (Z * Z)) (r : bool) (self' : GameSolution) :
  dfs fuel self current_colors path = Ok (r, self') →
  dfs_result self current_colors path r self'.
Proof.
  revert self current_colors path r self'.
  induction fuel as [|fuel IH]; intros self cur path r self'; [done|].
  rewrite dfs_S. unfold is_victory.
  destruct (check_victory (game self) cur) eqn:Hv.
  - intros [= <- <-]. split_and!; try done.
    exists [], cur. split; [by rewrite app_nil_r|]. split; [constructor|done].
  - intros Hrun.
    apply (dfs_for_inv fuel (game self) cur path IH) in Hrun
      as (Hg & Hsub & Hreach & Hpost); [|done|by intros m ?].
    split_and!; try done. destruct r; [done|].
    destruct Hpost as (Hf & Hm & Hsucc & Hfin).
    split_and!; try done.
Qed.

Lemma moves_of_same_units (g : Game) (C x : list (list Z)) (m : Z * Z) :
  same_units C x → m ∈ moves_of g x →
  ∃ y, make_move x m = Ok y ∧ same_units C y.
Proof.
  intros [Hlen Hunits]
    (i & j & init & c & tj & -> & Hij & Hi & Hj & _ & ->)%make_move_legal.
  eexists. split; [done|]. split.
  - by rewrite !length_insert.
  - by rewrite units_pour.
Qed.

Lemma reach_same_units (g : Game) (C final : list (list Z)) (path : list (Z * Z)) :
  reach g C path final → same_units C final.
Proof.
  induction 1 as [C|C m C' path final Hm Hmv _ IH]; [done|].
  destruct (moves_of_same_units g C C m) as (y & Hy & [Hlen Hu]); [done|done|].
  rewrite Hmv in Hy. injection Hy as <-. destruct IH as [Hlen' Hu'].
  split; [congruence|by rewrite Hu'].
Qed.

(** X6. The path that [solve] records is made of generated moves: each
    move of [moves] is one that [get_possible_moves] returns for the
    configuration it is applied to, and the path ends in a victory with as
    many tubes and the same units as the initial configuration. *)
Theorem solve_path_generated (fuel : nat) (self self' : GameSolution)
    (tube_colors : list (list Z)) :
  solution_found self = false →
  solve fuel self tube_colors = Ok self' →
  solution_found self' = true →
  ∃ final, reach (game self) tube_colors (moves self') final
    ∧ check_victory (game self) final = true
    ∧ same_units tube_colors final.
Proof.
  intros Hfresh Hrun Hfound. unfold solve in Hrun.
  destruct (dfs fuel (visit self tube_colors) tube_colors [])
    as [[r s]| |] eqn:Hd; simpl in Hrun; [|done..].
  injection Hrun as ->.
  apply dfs_inv in Hd as (_ & _ & _ & Hpost). destruct r.
  - destruct Hpost as (_ & suffix & final & Hmv & Hr & Hvic).
    simpl in Hmv. subst suffix. exists final. split_and!; try done.
    by eapply reach_same_units.
  - destruct Hpost as (Hf & _). simpl in Hf. congruence.
Qed.

Lemma solve_path_generated_witness :
  let self := init (spec_game 2) in
  let X := [[1; 2]; [2]; [1]] in
  solution_found self = false
  ∧ ∃ final, reach (spec_game 2) X [(0, 1); (0, 2)] final
      ∧ check_victory_spec 2 final = true
      ∧ same_units X final.
Proof.
  intros self X. split; [reflexivity|].
  set (self' := found (visit (visit (visit self X) [[1]; [2; 2]; [1]])
                         [[]; [2; 2]; [1; 1]]) [(0, 1); (0, 2)]).
  apply (solve_path_generated 10 self self' X); vm_compute; reflexivity.
Defined.

Lemma closed_reach (g : Game) (V : gset (list (list Z))) :
  (∀ x, x ∈ V → finished g V x) →
  ∀ x path final, reach g x path final → x ∈ V → final ∈ V.
Proof.
  intros Hclosed x path final Hr.
  induction Hr as [|x m x' path final Hm Hmv _ IH]; [done|].
  intros Hx. apply IH. destruct (Hclosed x Hx) as [_ Hsucc]. by eapply Hsucc.
Qed.

(** X7. "Not found" means that there is no solution: when [solve], called
    on an object whose [visited_states] is empty and whose flag is down,
    ends with the flag still down, no sequence of generated moves leads from
    the initial configuration to a victory. *)
Theorem solve_complete (fuel : nat) (self self' : GameSolution)
    (tube_colors final : list (list Z)) (path : list (Z * Z)) :
  visited_states self = ∅ →
  solve fuel self tube_colors = Ok self' →
  solution_found self' = false →
  reach (game self) tube_colors path final →
  check_victory (game self) final = false.
Proof.
  intros Hempty Hrun Hnot Hreach. unfold solve in Hrun.
  destruct (dfs fuel (visit self tube_colors) tube_colors [])
    as [[r s]| |] eqn:Hd; simpl in Hrun; [|done..].
  injection Hrun as ->.
  apply dfs_inv in Hd as (_ & Hsub & _ & Hpost).
  cbn [visit visited_states game] in Hsub, Hpost.
  destruct r; [destruct Hpost as [? _]; congruence|].
  destruct Hpost as (_ & _ & Hfin & Hnew).
  assert (∀ x, x ∈ visited_states self' → finished (game self) (visited_states self') x)
    as Hclosed.
  { intros x Hx. destruct (decide (x = tube_colors)) as [->|Hne]; [done|].
    apply Hnew; [done|]. rewrite Hempty, elem_of_union, elem_of_singleton.
    intros [?|?%elem_of_empty]; done. }
  assert (final ∈ visited_states self') as Hin.
  { eapply closed_reach; [done..|].
    apply Hsub, elem_of_union_l, elem_of_singleton. done. }
  by destruct (Hclosed final Hin).
Qed.

Lemma solve_complete_witness :
  let self := init (spec_game 2) in
  let X := [[1]; []] in
  let self' := visit (visit self X) [[]; [1]] in
  visited_states self = ∅
  ∧ solve 10 self X = Ok self'
  ∧ solution_found self' = false
  ∧ reach (spec_game 2) X [(0, 1)] [[]; [1]]
  ∧ check_victory_spec 2 [[]; [1]] = false.
Proof.
  intros self X self'.
  assert (solve 10 self X = Ok self') as Hrun by (vm_compute; reflexivity).
  assert (reach (spec_game 2) X [(0, 1)] [[]; [1]]) as Hreach.
  { econstructor; [vm_compute; constructor|reflexivity|constructor]. }
  split; [reflexivity|]. split; [exact Hrun|]. split; [reflexivity|].
  split; [exact Hreach|].
  exact (solve_complete 10 self self' X [[]; [1]] [(0, 1)]
           eq_refl Hrun eq_refl Hreach).
Defined.

(** ** The search space is finite, and [solve] returns *)

Lemma elem_of_lists_upto (alphabet t : list Z) (k : nat) :
  (∀ c, c ∈ t → c ∈ alphabet) → (length t ≤ k)%nat → t ∈ lists_upto alphabet k.
Proof.
  revert t. induction k as [|k IH]; intros [|c t] Hin Hlen; simpl in *;
    try lia; try (by left).
  right. apply list_elem_of_bind. exists c. split; [|apply Hin; left].
  apply list_elem_of_bind. exists t. split; [left|].
  apply IH; [|lia]. intros c' Hc'. apply Hin. by right.
Qed.

Lemma elem_of_tuples {X} (choices : list X) (l : list X) :
  Forall (λ x, x ∈ choices) l → l ∈ tuples choices (length l).
Proof.
  induction 1 as [|x l Hx _ IH]; simpl; [left|].
  apply list_elem_of_bind. exists x. split; [|done].
  apply list_elem_of_bind. exists l. split; [left|done].
Qed.

Lemma elem_of_concat_2 {X} (ls : list (list X)) (l : list X) (x : X) :
  l ∈ ls → x ∈ l → x ∈ concat ls.
Proof.
  rewrite !list_elem_of_In. intros Hl Hx. apply in_concat. eauto.
Qed.

Lemma elem_of_universe (C x : list (list Z)) : same_units C x → x ∈ universe C.
Proof.
  intros [Hlen Hunits]. unfold universe. rewrite <- Hlen.
  apply elem_of_tuples, Forall_forall. intros t Ht.
  assert (t ⊆ units x) as Hsub.
  { intros c Hc. unfold units. by eapply elem_of_concat_2. }
  apply elem_of_lists_upto.
  - intros c Hc. rewrite <- Hunits. by apply Hsub.
  - rewrite <- Hunits. unfold units.
    apply list_elem_of_lookup in Ht as [i Hi].
    rewrite <- (take_drop_middle x i t Hi), concat_app, concat_cons, !length_app.
    lia.
Qed.


Lemma unvisited_visit (C x : list (list Z)) (V : gset (list (list Z))) :
  same_units C x → x ∉ V → (unvisited C ({[x]} ∪ V) < unvisited C V)%nat.
Proof.
  intros Hx Hnew. apply subset_size. apply elem_of_universe in Hx. split.
  - intros y [Hy Hn]%elem_of_difference. apply elem_of_difference.
    split; [done|]. intros HyV. by apply Hn, elem_of_union_r.
  - intros Hsub.
    assert (x ∈ (list_to_set (universe C) : gset (list (list Z))) ∖ V) as Hin
      by (apply elem_of_difference; split; [by apply elem_of_list_to_set|done]).
    apply Hsub, elem_of_difference in Hin as [_ Hin].
    by apply Hin, elem_of_union_l, elem_of_singleton.
Qed.

Lemma size_list_to_set_le (l : list (list (list Z))) :
  (size (list_to_set l : gset (list (list Z))) ≤ length l)%nat.
Proof.
  induction l as [|x l IH].
  - by rewrite list_to_set_nil, size_empty.
  - rewrite list_to_set_cons, size_union_alt, size_singleton. simpl.
    assert (size ((list_to_set l : gset (list (list Z))) ∖ {[x]})
            ≤ size (list_to_set l : gset (list (list Z))))%nat; [|lia].
    apply subseteq_size. by intros y [? _]%elem_of_difference.
Qed.

Lemma unvisited_le (C : list (list Z)) (V : gset (list (list Z))) :
  (unvisited C V ≤ length (universe C))%nat.
Proof.
  unfold unvisited. etrans; [|apply size_list_to_set_le].
  apply subseteq_size. by intros y [? _]%elem_of_difference.
Qed.





(** ** [optimal_solve]: the invariant of the search *)

Lemma dict_get_Some (d : gmap (list (list Z)) Z) (k : list (list Z)) (v : Z) :
  d !! k = Some v → dict_get d k = Ok v.
Proof. unfold dict_get. by intros ->. Qed.

Lemma a_star_move_spec (self : GameSolution) (C cur : list (list Z))
    (path : list (Z * Z)) (st : AStar) (move : Z * Z) :
  astar_inv self C (Some cur) st →
  reach (game self) C path cur →
  g st !! cur = Some (Z.of_nat (length path)) →
  cur ∈ visited st →
  move ∈ moves_of (game self) cur →
  ∃ st', a_star_move self cur path st move = Ok st'
    ∧ astar_inv self C (Some cur) st'
    ∧ g st' !! cur = Some (Z.of_nat (length path))
    ∧ visited st ⊆ visited st'
    ∧ (∀ y, make_move cur move = Ok y → y ∈ visited st')
    ∧ (astar_left C st' ≤ astar_left C st)%nat.
Proof.
  intros Hinv Hreach Hg Hcur Hmove.
  destruct (moves_of_same_units (game self) C cur move) as (next & Hmv & Hnext);
    [by eapply reach_same_units|done|].
  destruct Hinv as ((Hheap & Hnd & Hqvis) & Hentries & HC & Hvis).
  unfold a_star_move. rewrite Hmv. cbn [mbind outcome_bind].
  case_decide as Hnew.
  2:{ exists st. split_and!; try done. intros y [= <-]. done. }
  rewrite (dict_get_Some _ _ _ Hg). cbn [mbind outcome_bind].
  repeat (rewrite dict_get_insert; cbn [mbind outcome_bind]).
  destruct (heappush_spec entry_lt entry_lt_strict (priority_queue st)
              (Z.of_nat (length path) + 1 + heuristic self next, next,
               path ++ [move]) Hheap) as (q & -> & Hheap' & Hperm).
  cbn [mbind outcome_bind]. eexists. split; [done|].
  assert (cur ≠ next) as Hne by (by intros <-).
  split; [|split; [|split; [|split]]].
  - unfold astar_inv, queue_ok. cbn [priority_queue g visited].
    split; [|split; [|split]].
    + split; [done|]. split.
      * rewrite Hperm, fmap_cons. simpl. constructor; [|done].
        intros (e & -> & He)%list_elem_of_fmap. by apply Hnew, Hqvis.
      * intros e He. rewrite Hperm in He. apply elem_of_cons in He as [->|He].
        -- simpl. by apply elem_of_union_l, elem_of_singleton.
        -- apply elem_of_union_r. by apply Hqvis.
    + intros fv colors p Hin. rewrite Hperm in Hin.
      apply elem_of_cons in Hin as [[= -> -> ->]|Hin].
      * split; [by eapply reach_snoc|]. split.
        -- rewrite lookup_insert_eq, length_app. simpl. f_equal. lia.
        -- rewrite length_app. simpl. lia.
      * destruct (Hentries fv colors p Hin) as (? & ? & ?).
        split; [done|]. split; [|done].
        rewrite lookup_insert_ne; [done|]. intros <-.
        apply Hnew. by apply (Hqvis (fv, next, p)).
    + by apply elem_of_union_r.
    + intros x [->%elem_of_singleton|Hx]%elem_of_union.
      * split; [done|]. right. left. rewrite Hperm, fmap_cons. left.
      * destruct (Hvis x Hx) as [Hsame Hx'].
        split; [done|]. destruct Hx' as [?|[Hin|Hfin]]; [by left|..].
        -- right. left. rewrite Hperm, fmap_cons. by right.
        -- right. right. eapply finished_mono; [|done]. apply union_subseteq_r.
  - cbn [g]. by rewrite lookup_insert_ne.
  - cbn [visited]. apply union_subseteq_r.
  - cbn [visited]. intros y [= <-]. by apply elem_of_union_l, elem_of_singleton.
  - unfold astar_left. cbn [visited priority_queue]. rewrite Hperm. simpl.
    pose proof (unvisited_visit C next (visited st) Hnext Hnew). lia.
Qed.

Lemma a_star_for_spec (self : GameSolution) (C cur : list (list Z))
    (path : list (Z * Z)) :
  reach (game self) C path cur →
  ∀ todo st,
    astar_inv self C (Some cur) st →
    g st !! cur = Some (Z.of_nat (length path)) →
    cur ∈ visited st →
    (∀ m, m ∈ todo → m ∈ moves_of (game self) cur) →
    ∃ st', a_star_for self cur path st todo = Ok st'
      ∧ astar_inv self C (Some cur) st'
      ∧ visited st ⊆ visited st'
      ∧ (∀ m y, m ∈ todo → make_move cur m = Ok y → y ∈ visited st')
      ∧ (astar_left C st' ≤ astar_left C st)%nat.
Proof.
  intros Hreach todo. induction todo as [|m todo IH]; intros st Hinv Hg Hcur Htodo.
  { exists st. split_and!; try done. intros m y Hm. by apply elem_of_nil in Hm. }
  destruct (a_star_move_spec self C cur path st m Hinv Hreach Hg Hcur)
    as (st1 & Hrun1 & Hinv1 & Hg1 & Hsub1 & Hsucc1 & Hleft1); [apply Htodo; left|].
  destruct (IH st1 Hinv1 Hg1) as (st' & Hrun & Hinv' & Hsub & Hsucc & Hleft).
  { by apply Hsub1. }
  { intros m' ?. apply Htodo. by right. }
  exists st'. cbn [a_star_for]. rewrite Hrun1. cbn [mbind outcome_bind].
  split; [done|]. split; [done|]. split; [by etrans|]. split; [|lia].
  intros m' y [->|Hin]%elem_of_cons Hy.
  - by apply Hsub, Hsucc1.
  - by eapply Hsucc.
Qed.

(** One turn of the [while] loop that does not end the search. *)
Lemma astar_step (self : GameSolution) (C : list (list Z)) (st : AStar)
    (fv : Z) (cur : list (list Z)) (path : list (Z * Z))
    (rest : list (Z * list (list Z) * list (Z * Z))) :
  astar_inv self C None st →
  heappop entry_lt (priority_queue st) = Ok ((fv, cur, path), rest) →
  is_victory self cur = false →
  ∃ st', a_star_for self cur path (with_queue st rest)
           (get_possible_moves self cur) = Ok st'
    ∧ astar_inv self C None st'
    ∧ (astar_left C st' < astar_left C st)%nat.
Proof.
  intros ((Hheap & Hnd & Hqvis) & Hentries & HC & Hvis) Hpop Hvic.
  destruct (heappop_spec entry_lt entry_lt_strict _ Hheap
              (heappop_nonempty _ _ _ Hpop))
    as (x & rest' & Hpop' & Hheap' & Hperm & _).
  rewrite Hpop in Hpop'. injection Hpop' as <- <-.
  assert ((fv, cur, path) ∈ priority_queue st) as Hitem by (rewrite Hperm; left).
  destruct (Hentries _ _ _ Hitem) as (Hreach & Hg & _).
  assert (cur ∈ visited st) as Hcur by (by apply (Hqvis (fv, cur, path))).
  destruct (a_star_for_spec self C cur path Hreach
              (get_possible_moves self cur) (with_queue st rest))
    as (st' & Hrun & Hinv' & Hsub & Hsucc & Hleft); try done.
  { unfold astar_inv, queue_ok. cbn [with_queue priority_queue g visited].
    split; [split; [done|split]|split; [|split; [done|]]].
    - rewrite Hperm, fmap_cons in Hnd. by apply NoDup_cons in Hnd as [_ ?].
    - intros e He. apply Hqvis. rewrite Hperm. by right.
    - intros fv' colors p Hin. apply Hentries. rewrite Hperm. by right.
    - intros y Hy. destruct (Hvis y Hy) as [Hsame Hy']. split; [done|].
      destruct Hy' as [?|[Hin|Hfin]]; [done| |by right; right].
      rewrite Hperm, fmap_cons in Hin. apply elem_of_cons in Hin as [->|Hin].
      + by left.
      + right. by left. }
  exists st'. split; [done|]. split.
  - destruct Hinv' as (Hq' & Hentries' & HC' & Hvis').
    split; [done|]. split; [done|]. split; [done|].
    intros y Hy. destruct (Hvis' y Hy) as [Hsame Hy']. split; [done|].
    destruct Hy' as [[= ->]|[Hin|Hfin]]; [|by right; left|by right; right].
    right. right. split; [done|]. intros m z Hm Hz. by eapply Hsucc.
  - revert Hleft. unfold astar_left. cbn [with_queue priority_queue visited].
    rewrite Hperm. simpl. lia.
Qed.

Lemma frontier_inv (self : GameSolution) (C : list (list Z)) (st : AStar) :
  frontier self C st → astar_inv self C None st.
Proof.
  induction 1 as [st Hinit|st fv cur path queue st' _ IH Hpop Hvic Hfor].
  - unfold a_star_init, dict_get in Hinit.
    rewrite !lookup_singleton_eq in Hinit. cbn [mbind outcome_bind] in Hinit.
    rewrite lookup_singleton_eq in Hinit. injection Hinit as <-.
    unfold astar_inv, queue_ok. cbn [priority_queue g visited].
    split; [split; [|split]|split; [|split]].
    + intros j x p Hj Hx. destruct j; [lia|done].
    + apply NoDup_singleton.
    + intros e ->%list_elem_of_singleton. simpl.
      by apply elem_of_union_l, elem_of_singleton.
    + intros fv colors path [= -> -> ->]%list_elem_of_singleton.
      split; [constructor|]. split; [by rewrite lookup_singleton_eq|done].
    + by apply elem_of_union_l, elem_of_singleton.
    + intros x [->%elem_of_singleton|?%elem_of_empty]%elem_of_union; [|done].
      split; [done|]. right. left. simpl. left.
  - destruct (astar_step self C st fv cur path queue IH Hpop Hvic)
      as (st'' & Hfor' & Hinv & _).
    rewrite Hfor in Hfor'. by injection Hfor' as <-.
Qed.

Lemma a_star_while_nil (fuel : nat) (self : GameSolution) (st : AStar) :
  priority_queue st = [] → a_star_while fuel self st = Ok (false, self).
Proof. intros Hq. destruct fuel; simpl; by rewrite Hq. Qed.

Lemma a_star_while_S (fuel : nat) (self : GameSolution) (st : AStar) :
  priority_queue st ≠ [] →
  a_star_while (S fuel) self st
  = ('(item, queue) ← heappop entry_lt (priority_queue st);
     let '(_, current_colors, path) := item in
     let st := with_queue st queue in
     if is_victory self current_colors then Ok (true, found self path)
     else
       st ← a_star_for self current_colors path st
              (get_possible_moves self current_colors);
       a_star_while fuel self st).
Proof. intros Hq. simpl. by destruct (priority_queue st). Qed.

(** What [a_star_search] answers, from any state at the head of its loop. *)
Lemma a_star_while_spec (fuel : nat) (self : GameSolution) (C : list (list Z))
    (st : AStar) (r : bool) (self' : GameSolution) :
  frontier self C st →
  a_star_while fuel self st = Ok (r, self') →
  if r then
    ∃ path final, self' = found self path
      ∧ reach (game self) C path final
      ∧ check_victory (game self) final = true
  else
    self' = self
    ∧ ∀ path final, reach (game self) C path final →
        check_victory (game self) final = false.
Proof.
  revert st. induction fuel as [|fuel IH]; intros st Hfr;
    (destruct (decide (priority_queue st = [])) as [Hq|Hq];
     [rewrite (a_star_while_nil _ _ _ Hq); intros [= <- <-]; split; [done|];
      apply frontier_inv in Hfr as (_ & _ & HC & Hvis);
      assert (∀ x, x ∈ visited st → finished (game self) (visited st) x) as Hclosed
        by (intros x Hx; destruct (Hvis x Hx) as [_ [?|[Hin|?]]];
            [done|by rewrite Hq in Hin; apply elem_of_nil in Hin|done]);
      intros path final Hreach;
      by destruct (Hclosed final (closed_reach _ _ Hclosed _ _ _ Hreach HC))|]).
  { simpl. by destruct (priority_queue st). }
  rewrite (a_star_while_S _ _ _ Hq).
  destruct (heappop entry_lt (priority_queue st)) as [[[[fv cur] path] rest]| |]
    eqn:Hpop; [|done..].
  cbn [mbind outcome_bind]. destruct (is_victory self cur) eqn:Hvic.
  - intros [= <- <-]. exists path, cur. split; [done|]. split; [|done].
    pose proof (frontier_inv _ _ _ Hfr) as ((Hheap & _) & Hentries & _).
    destruct (heappop_spec entry_lt entry_lt_strict _ Hheap Hq)
      as (x & rest' & Hpop' & _ & Hperm & _).
    rewrite Hpop in Hpop'. injection Hpop' as <- <-.
    apply (Hentries fv). rewrite Hperm. left.
  - destruct (a_star_for self cur path (with_queue st rest)
                (get_possible_moves self cur)) as [st'| |] eqn:Hfor; [|done..].
    cbn [mbind outcome_bind]. apply IH. by eapply frontier_next.
Qed.

Lemma a_star_while_returns (fuel : nat) (self : GameSolution) (C : list (list Z))
    (st : AStar) :
  frontier self C st →
  (astar_left C st ≤ fuel)%nat →
  ∃ r self', a_star_while fuel self st = Ok (r, self').
Proof.
  revert st. induction fuel as [|fuel IH]; intros st Hfr Hleft;
    (destruct (decide (priority_queue st = [])) as [Hq|Hq];
     [rewrite (a_star_while_nil _ _ _ Hq); eauto|]).
  { unfold astar_left in Hleft. destruct (priority_queue st); [done|simpl in *; lia]. }
  rewrite (a_star_while_S _ _ _ Hq).
  pose proof (frontier_inv _ _ _ Hfr) as Hinv.
  destruct (heappop_spec entry_lt entry_lt_strict _ (proj1 (proj1 Hinv)) Hq)
    as ([[fv cur] path] & rest & Hpop & _).
  rewrite Hpop. cbn [mbind outcome_bind].
  destruct (is_victory self cur) eqn:Hvic; [eauto|].
  destruct (astar_step self C st fv cur path rest Hinv Hpop Hvic)
    as (st' & Hfor & _ & Hless).
  rewrite Hfor. cbn [mbind outcome_bind]. apply IH; [|lia].
  by eapply frontier_next.
Qed.

Lemma optimal_solve_cases (fuel : nat) (self self' : GameSolution)
    (C : list (list Z)) :
  optimal_solve fuel self C = Ok self' →
  (∃ path final, self' = found self path
     ∧ reach (game self) C path final
     ∧ check_victory (game self) final = true)
  ∨ (self' = self
     ∧ ∀ path final, reach (game self) C path final →
         check_victory (game self) final = false).
Proof.
  unfold optimal_solve, a_star_search.
  destruct (a_star_init_Ok self C) as (st & Hinit & _). rewrite Hinit.
  cbn [mbind outcome_bind].
  destruct (a_star_while fuel self st) as [[r s]| |] eqn:Hrun; [|done..].
  cbn [mbind outcome_bind]. intros [= <-].
  apply (a_star_while_spec fuel self C) in Hrun; [|by apply frontier_start].
  destruct r; [by left|by right].
Qed.

Lemma solve_cases (fuel : nat) (self self' : GameSolution) (C : list (list Z)) :
  solve fuel self C = Ok self' →
  (solution_found self' = true
     ∧ ∃ final, reach (game self) C (moves self') final
         ∧ check_victory (game self) final = true)
  ∨ (solution_found self' = solution_found self
     ∧ moves self' = moves self
     ∧ (visited_states self = ∅ →
        ∀ path final, reach (game self) C path final →
          check_victory (game self) final = false)).
Proof.
  unfold solve.
  destruct (dfs fuel (visit self C) C []) as [[r s]| |] eqn:Hd; [|done..].
  cbn [mbind outcome_bind]. intros [= <-].
  apply dfs_inv in Hd as (_ & Hsub & _ & Hpost).
  cbn [visit visited_states game solution_found moves] in Hsub, Hpost.
  destruct r.
  - left. destruct Hpost as (Hf & suffix & final & Hmv & Hr & Hvic).
    simpl in Hmv. subst suffix. eauto.
  - right. destruct Hpost as (Hf & Hm & Hfin & Hnew). split_and!; try done.
    intros Hempty path final Hreach.
    assert (∀ x, x ∈ visited_states s → finished (game self) (visited_states s) x)
      as Hclosed.
    { intros x Hx. destruct (decide (x = C)) as [->|Hne]; [done|].
      apply Hnew; [done|]. rewrite Hempty, elem_of_union, elem_of_singleton.
      intros [?|?%elem_of_empty]; done. }
    assert (final ∈ visited_states s) as Hin.
    { eapply closed_reach; [done..|].
      apply Hsub, elem_of_union_l, elem_of_singleton. done. }
    by destruct (Hclosed final Hin).
Qed.

(** ** [optimal_solve]: what the search returns *)

(** X9. The path that [optimal_solve] records is made of generated moves:
    each move of [moves] is one that [get_possible_moves] returns for the
    configuration it is applied to, and the path ends in a victory with as
    many tubes and the same units as the initial configuration. *)
Theorem optimal_solve_path_generated (fuel : nat) (self self' : GameSolution)
    (tube_colors : list (list Z)) :
  solution_found self = false →
  optimal_solve fuel self tube_colors = Ok self' →
  solution_found self' = true →
  ∃ final, reach (game self) tube_colors (moves self') final
    ∧ check_victory (game self) final = true
    ∧ same_units tube_colors final.
Proof.
  intros Hfresh Hrun Hfound.
  apply optimal_solve_cases in Hrun
    as [(path & final & -> & Hreach & Hvic)|[-> _]]; [|congruence].
  exists final. split_and!; try done. by eapply reach_same_units.
Qed.

Lemma optimal_solve_path_generated_witness :
  let self := init (spec_game 2) in
  let X := [[1; 2]; [2]; [1]] in
  solution_found self = false
  ∧ optimal_solve 10 self X = Ok (found self [(0, 1); (0, 2)])
  ∧ ∃ final, reach (spec_game 2) X [(0, 1); (0, 2)] final
      ∧ check_victory_spec 2 final = true
      ∧ same_units X final.
Proof.
  intros self X.
  assert (optimal_solve 10 self X = Ok (found self [(0, 1); (0, 2)])) as Hrun
    by (vm_compute; reflexivity).
  split; [reflexivity|]. split; [exact Hrun|].
  exact (optimal_solve_path_generated 10 self _ X eq_refl Hrun eq_refl).
Defined.

(** X10. "Not found" means that there is no solution, whatever the state
    of the object: when [optimal_solve] ends with [solution_found] down, no
    sequence of generated moves leads from the initial configuration to a
    victory. *)
Theorem optimal_solve_complete (fuel : nat) (self self' : GameSolution)
    (tube_colors final : list (list Z)) (path : list (Z * Z)) :
  optimal_solve fuel self tube_colors = Ok self' →
  solution_found self' = false →
  reach (game self) tube_colors path final →
  check_victory (game self) final = false.
Proof.
  intros Hrun Hnot Hreach.
  apply optimal_solve_cases in Hrun as [(p & x & -> & _)|[_ Hnone]]; [done|].
  by eapply Hnone.
Qed.

Lemma optimal_solve_complete_witness :
  let self := init (spec_game 2) in
  let X := [[1]; []] in
  optimal_solve 10 self X = Ok self
  ∧ solution_found self = false
  ∧ reach (spec_game 2) X [(0, 1)] [[]; [1]]
  ∧ check_victory_spec 2 [[]; [1]] = false.
Proof.
  intros self X.
  assert (optimal_solve 10 self X = Ok self) as Hrun by (vm_compute; reflexivity).
  assert (reach (spec_game 2) X [(0, 1)] [[]; [1]]) as Hreach.
  { econstructor; [vm_compute; constructor|reflexivity|constructor]. }
  split; [exact Hrun|]. split; [reflexivity|]. split; [exact Hreach|].
  exact (optimal_solve_complete 10 self self X [[]; [1]] [(0, 1)]
           Hrun eq_refl Hreach).
Defined.

(** X11. [optimal_solve] returns: with more fuel than the search space of
    the puzzle has configurations, the [while] loop never runs out of it,
    and nothing raises: no [IndexError] from [make_move] or [heappop], no
    [KeyError] from the dictionary [g]. *)
Theorem optimal_solve_returns (fuel : nat) (self : GameSolution)
    (tube_colors : list (list Z)) :
  (length (universe tube_colors) < fuel)%nat →
  ∃ self', optimal_solve fuel self tube_colors = Ok self'.
Proof.
  intros Hfuel. unfold optimal_solve, a_star_search.
  destruct (a_star_init_Ok self tube_colors) as (st & Hinit & Hq). rewrite Hinit.
  cbn [mbind outcome_bind].
  destruct (a_star_while_returns fuel self tube_colors st) as (r & self' & ->).
  - by apply frontier_start.
  - unfold astar_left. rewrite Hq. simpl.
    pose proof (unvisited_le tube_colors (visited st)). lia.
  - cbn [mbind outcome_bind]. eauto.
Qed.

Lemma optimal_solve_returns_witness :
  (length (universe [[1%Z]; []]) < 10)%nat
  ∧ ∃ self', optimal_solve 10 (init (spec_game 2)) [[1]; []] = Ok self'.
Proof.
  assert (length (universe [[1%Z]; []]) < 10)%nat as H by (vm_compute; lia).
  split; [exact H|].
  exact (optimal_solve_returns 10 (init (spec_game 2)) [[1]; []] H).
Defined.

(** X12. Every entry [(f, colors, path)] of the frontier is consistent:
    [path] leads from the start to [colors] by generated moves, [g[colors]]
    is the length of [path], and [f] is that length plus the heuristic of
    [colors]. *)
Theorem frontier_entries (self : GameSolution) (start_colors : list (list Z))
    (st : AStar) (fv : Z) (colors : list (list Z)) (path : list (Z * Z)) :
  frontier self start_colors st →
  (fv, colors, path) ∈ priority_queue st →
  reach (game self) start_colors path colors
  ∧ g st !! colors = Some (Z.of_nat (length path))
  ∧ fv = Z.of_nat (length path) + heuristic self colors.
Proof.
  intros (_ & Hentries & _)%frontier_inv Hin. by apply Hentries.
Qed.

Lemma frontier_entries_witness :
  let self := init (spec_game 2) in
  let start := [[1]; []; []] in
  let c1 := [[]; [1]; []] in
  let c2 := [[]; []; [1]] in
  let e1 := (2, c1, [(0, 1)]) in
  let e2 := (2, c2, [(0, 2)]) in
  let st0 := mkAStar {[start := 0]} {[start := 1]} {[start := 1]}
               [(1, start, [])] ({[start]} ∪ ∅) in
  let st1 := mkAStar (<[c2 := 1]> (<[c1 := 1]> {[start := 0]}))
               (<[c2 := 1]> (<[c1 := 1]> {[start := 1]}))
               (<[c2 := 2]> (<[c1 := 2]> {[start := 1]}))
               [e2; e1] ({[c2]} ∪ ({[c1]} ∪ ({[start]} ∪ ∅))) in
  frontier self start st1
  ∧ e1 ∈ priority_queue st1
  ∧ reach (spec_game 2) start [(0, 1)] c1
  ∧ g st1 !! c1 = Some 1
  ∧ 2 = 1 + heuristic self c1.
Proof.
  intros self start c1 c2 e1 e2 st0 st1.
  assert (frontier self start st1) as Hfr.
  { apply (frontier_next self start st0 1 start [] [] st1).
    - apply frontier_start. vm_compute. reflexivity.
    - vm_compute. reflexivity.
    - vm_compute. reflexivity.
    - vm_compute. reflexivity. }
  assert (e1 ∈ priority_queue st1) as Hin by (right; left).
  split; [exact Hfr|]. split; [exact Hin|].
  exact (frontier_entries self start st1 2 c1 [(0, 1)] Hfr Hin).
Defined.

(** X13. [optimal_solve] keeps its visited set to itself: it returns the
    object unchanged when it finds nothing, and otherwise changes only
    [solution_found] and [moves]; [visited_states] and [game] are never
    touched, and a flag that was up stays up. *)
Theorem optimal_solve_frame (fuel : nat) (self self' : GameSolution)
    (tube_colors : list (list Z)) :
  optimal_solve fuel self tube_colors = Ok self' →
  game self' = game self
  ∧ visited_states self' = visited_states self
  ∧ (solution_found self' = false → self' = self)
  ∧ (solution_found self = true → solution_found self' = true).
Proof.
  intros [(path & final & -> & _)|[-> _]]%optimal_solve_cases; by split_and!.
Qed.

Lemma optimal_solve_frame_witness :
  let self := visit (init (spec_game 2)) [[1]; []] in
  let X := [[1; 2]; [2]; [1]] in
  optimal_solve 10 self X = Ok (found self [(0, 1); (0, 2)])
  ∧ visited_states (found self [(0, 1); (0, 2)]) = visited_states self.
Proof.
  intros self X.
  assert (optimal_solve 10 self X = Ok (found self [(0, 1); (0, 2)])) as Hrun
    by (vm_compute; reflexivity).
  split; [exact Hrun|].
  exact (proj1 (proj2 (optimal_solve_frame 10 self _ X Hrun))).
Defined.

(** X14. [solve] only adds to the state of the object: [game] is kept,
    [visited_states] grows and holds the initial configuration, every
    configuration added to it is reachable from the initial one by
    generated moves, and a flag [solution_found] that was up stays up. *)
Theorem solve_frame (fuel : nat) (self self' : GameSolution)
    (tube_colors : list (list Z)) :
  solve fuel self tube_colors = Ok self' →
  game self' = game self
  ∧ visited_states self ⊆ visited_states self'
  ∧ tube_colors ∈ visited_states self'
  ∧ (∀ x, x ∈ visited_states self' → x ∉ visited_states self →
       ∃ p, reach (game self) tube_colors p x)
  ∧ (solution_found self = true → solution_found self' = true).
Proof.
  unfold solve.
  destruct (dfs fuel (visit self tube_colors) tube_colors [])
    as [[r s]| |] eqn:Hd; [|done..].
  cbn [mbind outcome_bind]. intros [= <-].
  apply dfs_inv in Hd as (Hg & Hsub & Hreach & Hpost).
  cbn [visit visited_states game solution_found moves] in Hg, Hsub, Hreach, Hpost.
  split; [done|]. split; [etrans; [|exact Hsub]; apply union_subseteq_r|].
  split; [by apply Hsub, elem_of_union_l, elem_of_singleton|]. split.
  - intros x Hx Hnx. destruct (decide (x = tube_colors)) as [->|Hne].
    + exists []. constructor.
    + apply Hreach; [done|]. rewrite elem_of_union, elem_of_singleton. tauto.
  - destruct r; [by destruct Hpost|]. destruct Hpost as [-> _]. done.
Qed.

Lemma solve_frame_witness :
  let self := init (spec_game 2) in
  let X := [[1]; []] in
  let self' := visit (visit self X) [[]; [1]] in
  solve 10 self X = Ok self'
  ∧ visited_states self ⊆ visited_states self'
  ∧ X ∈ visited_states self'.
Proof.
  intros self X self'.
  assert (solve 10 self X = Ok self') as Hrun by (vm_compute; reflexivity).
  split; [exact Hrun|].
  destruct (solve_frame 10 self self' X Hrun) as (_ & Hsub & HX & _).
  split; [exact Hsub|exact HX].
Defined.

(** X15. The two searches agree: started from the same object, with an
    empty [visited_states] and the flag down, on the same configuration,
    [solve] ends with [solution_found] up exactly when [optimal_solve]
    does. *)
Theorem searches_agree (fuel1 fuel2 : nat) (self s1 s2 : GameSolution)
    (tube_colors : list (list Z)) :
  visited_states self = ∅ →
  solution_found self = false →
  solve fuel1 self tube_colors = Ok s1 →
  optimal_solve fuel2 self tube_colors = Ok s2 →
  solution_found s1 = solution_found s2.
Proof.
  intros Hempty Hdown Hdfs Hastar.
  apply solve_cases in Hdfs as [(Hf1 & final1 & Hr1 & Hv1)|(Hf1 & _ & Hnone1)];
    apply optimal_solve_cases in Hastar
      as [(path & final2 & -> & Hr2 & Hv2)|[-> Hnone2]].
  - by rewrite Hf1.
  - rewrite (Hnone2 _ _ Hr1) in Hv1. done.
  - rewrite (Hnone1 Hempty _ _ Hr2) in Hv2. done.
  - by rewrite Hf1.
Qed.

Lemma searches_agree_witness :
  let self := init (spec_game 2) in
  let X := [[1; 2]; [2]; [1]] in
  let s1 := found (visit (visit (visit self X) [[1]; [2; 2]; [1]])
                     [[]; [2; 2]; [1; 1]]) [(0, 1); (0, 2)] in
  let s2 := found self [(0, 1); (0, 2)] in
  visited_states self = ∅
  ∧ solve 10 self X = Ok s1
  ∧ optimal_solve 10 self X = Ok s2
  ∧ solution_found s1 = solution_found s2.
Proof.
  intros self X s1 s2.
  assert (solve 10 self X = Ok s1) as H1 by (vm_compute; reflexivity).
  assert (optimal_solve 10 self X = Ok s2) as H2 by (vm_compute; reflexivity).
  split; [reflexivity|]. split; [exact H1|]. split; [exact H2|].
  exact (searches_agree 10 10 self s1 s2 X eq_refl eq_refl H1 H2).
Defined.

(** X16. The frontier never holds a configuration twice, every queued
    configuration has been marked visited, and every visited configuration
    has as many tubes and the same units as the start. *)
Theorem frontier_visited (self : GameSolution) (start_colors : list (list Z))
    (st : AStar) :
  frontier self start_colors st →
  NoDup ((λ e, e.1.2) <$> priority_queue st)
  ∧ (∀ e, e ∈ priority_queue st → e.1.2 ∈ visited st)
  ∧ start_colors ∈ visited st
  ∧ ∀ x, x ∈ visited st → same_units start_colors x.
Proof.
  intros ((_ & Hnd & Hq) & _ & HC & Hvis)%frontier_inv.
  split_and!; try done. intros x Hx. by destruct (Hvis x Hx).
Qed.

Lemma frontier_visited_witness :
  let self := init (spec_game 2) in
  let start := [[1]; []; []] in
  let st0 := mkAStar {[start := 0]} {[start := 1]} {[start := 1]}
               [(1, start, [])] ({[start]} ∪ ∅) in
  frontier self start st0
  ∧ NoDup ((λ e, e.1.2) <$> priority_queue st0)
  ∧ (∀ e, e ∈ priority_queue st0 → e.1.2 ∈ visited st0)
  ∧ start ∈ visited st0
  ∧ ∀ x, x ∈ visited st0 → same_units start x.
Proof.
  intros self start st0.
  assert (frontier self start st0) as Hfr
    by (apply frontier_start; vm_compute; reflexivity).
  split; [exact Hfr|]. exact (frontier_visited self start st0 Hfr).
Defined.
